(** * DL-ImageCaptioning: caption pipeline and early stopping

    A shallow embedding of
    - [dataset/flickr_dataset.py]: [Vocabulary], [FlickrConvRNN],
      [BatchCollateFn];
    - [utils/utils.py]: [get_vocabulary];
    - [utils/callbacks.py]: [Callbacks.better_score], [EarlyStopping].

    Conventions.
    - A Python [str] is a [string]; a character is a code point below
      U+0100, so the development covers captions written in Latin-1.
    - A Python [dict] that is only looked up is a [gmap]; the counting
      dictionary of [get_vocabulary], whose iteration order decides the
      ids, is an insertion-ordered association list.
    - A raised exception is the [Raise] case of [result]. *)

From Stdlib Require Import ZArith Ascii String SpecFloat.
From stdpp Require Import base gmap strings list fin_maps.

Local Open Scope stdpp_scope.

(** ** Exceptions *)

Inductive exn : Type :=
  | IndexError      (* list index out of range *)
  | KeyError        (* dict lookup of an absent key *)
  | ValueError      (* max() of an empty sequence *)
  | RuntimeError    (* raised by torch *)
  | AttributeError  (* a method the object does not have *)
  | ImageError.     (* raised while opening or transforming an image *)

Inductive result (A : Type) : Type :=
  | Return (a : A)
  | Raise (e : exn).
Arguments Return {A} a.
Arguments Raise {A} e.

#[global] Instance result_ret : MRet result := fun A a => Return a.

#[global] Instance result_bind : MBind result := fun A B k m =>
  match m with
  | Return a => k a
  | Raise e => Raise e
  end.

#[global] Instance result_fmap : FMap result := fun A B f m =>
  match m with
  | Return a => Return (f a)
  | Raise e => Raise e
  end.

(** ** Python string methods used by the tokenizer *)

Module PyStr.

Definition code (c : ascii) : N := N_of_ascii c.

Definition between (lo hi n : N) : bool := (lo <=? n)%N && (n <=? hi)%N.

(** [c.isspace()], which is also the separator test of [str.split()] and
    [str.strip()] called without argument. *)
Definition isspace (c : ascii) : bool :=
  let n := code c in
  between 9 13 n || between 28 32 n || (n =? 133)%N || (n =? 160)%N.

(** The class [a-zA-Z0-9] of the regular expression. *)
Definition is_ascii_alnum (c : ascii) : bool :=
  let n := code c in
  between 48 57 n || between 65 90 n || between 97 122 n.

(** The class [a-z0-9] of a normalized token. *)
Definition is_lower_alnum (c : ascii) : bool :=
  let n := code c in
  between 48 57 n || between 97 122 n.

(** [c.isalnum()]: letters and numeric characters, also beyond ASCII. *)
Definition isalnum_char (c : ascii) : bool :=
  let n := code c in
  is_ascii_alnum c
  || (n =? 170)%N || between 178 179 n || (n =? 181)%N
  || between 185 186 n || between 188 190 n
  || between 192 214 n || between 216 246 n || between 248 255 n.

Fixpoint all_chars (p : ascii → bool) (s : string) : bool :=
  match s with
  | EmptyString => true
  | String c s' => p c && all_chars p s'
  end.

(** [s.isalnum()]: false on the empty string. *)
Definition isalnum (s : string) : bool :=
  match s with
  | EmptyString => false
  | _ => all_chars isalnum_char s
  end.

Definition lower_char (c : ascii) : ascii :=
  let n := code c in
  if between 65 90 n || between 192 214 n || between 216 222 n
  then ascii_of_N (n + 32)
  else c.

Fixpoint lower (s : string) : string :=
  match s with
  | EmptyString => EmptyString
  | String c s' => String (lower_char c) (lower s')
  end.

(** [re.sub(r'[^a-zA-Z0-9]', '', s)] *)
Fixpoint sub_non_alnum (s : string) : string :=
  match s with
  | EmptyString => EmptyString
  | String c s' =>
      if is_ascii_alnum c then String c (sub_non_alnum s')
      else sub_non_alnum s'
  end.

Definition flush (cur : string) : list string :=
  match cur with
  | EmptyString => []
  | _ => [String.rev cur]
  end.

(** [cur] holds the piece being read, last character first. *)
Fixpoint split_go (cur : string) (s : string) : list string :=
  match s with
  | EmptyString => flush cur
  | String c s' =>
      if isspace c then flush cur ++ split_go EmptyString s'
      else split_go (String c cur) s'
  end.

(** [s.split()] *)
Definition split (s : string) : list string := split_go EmptyString s.

Fixpoint lstrip (s : string) : string :=
  match s with
  | EmptyString => EmptyString
  | String c s' => if isspace c then lstrip s' else s
  end.

(** [s.strip()] *)
Definition strip (s : string) : string :=
  String.rev (lstrip (String.rev (lstrip s))).

(** [len(s)] as a truth value. *)
Definition nonempty (s : string) : bool :=
  match s with
  | EmptyString => false
  | _ => true
  end.

End PyStr.

(** ** Tokenizer

    The three lines shared by [FlickrConvRNN.__getitem__] and
    [get_vocabulary]:
    [tokens = caption.split()],
    [[re.sub(.., '', token.lower()) for token in tokens if token.isalnum()]],
    [[token for token in tokens if len(token)]]. *)

Definition tokenize (caption : string) : list string :=
  let tokens := PyStr.split caption in
  let tokens :=
    map (fun token => PyStr.sub_non_alnum (PyStr.lower token))
        (List.filter PyStr.isalnum tokens) in
  List.filter PyStr.nonempty tokens.

(** ** Reserved symbols

    [dataset/enums.py] is not part of the sources at hand: its four
    constants are parameters of the development. *)

Section Pipeline.

Variables PAD UNK_WORD START_SEQ END_SEQ : string.

(** ** Vocabulary *)

Record Vocabulary : Type := mkVocabulary {
  word2idx : gmap string nat;
  idx2word : gmap nat string;
  idx : nat
}.

(** [d[key]] on a plain [dict]. *)
Definition dict_getitem `{Countable K} {V} (d : gmap K V) (key : K) : result V :=
  match d !! key with
  | Some v => Return v
  | None => Raise KeyError
  end.

(** [{v: k for k, v in d.items()}] *)
Definition dict_invert (d : gmap string nat) : gmap nat string :=
  map_fold (fun k v acc => <[v := k]> acc) ∅ d.

(** [{PAD: 0, UNK_WORD: 1, START_SEQ: 2, END_SEQ: 3}]: the entries are
    stored from left to right, a repeated key keeping its last value. *)
Definition reserved_word2idx : gmap string nat :=
  <[END_SEQ := 3]> (<[START_SEQ := 2]> (<[UNK_WORD := 1]> (<[PAD := 0]> ∅))).

(** [Vocabulary.__init__] *)
Definition Vocabulary_init : Vocabulary :=
  {| word2idx := reserved_word2idx;
     idx2word := dict_invert reserved_word2idx;
     idx := 4 |}.

(** [Vocabulary.add_word] *)
Definition add_word (self : Vocabulary) (word : string) : Vocabulary :=
  match word2idx self !! word with
  | Some _ => self
  | None =>
      {| word2idx := <[word := idx self]> (word2idx self);
         idx2word := <[idx self := word]> (idx2word self);
         idx := S (idx self) |}
  end.

(** [Vocabulary.__call__] *)
Definition Vocabulary_call (self : Vocabulary) (word : string) : result nat :=
  match word2idx self !! word with
  | None => dict_getitem (word2idx self) UNK_WORD
  | Some _ => dict_getitem (word2idx self) word
  end.

(** [Vocabulary.__len__] *)
Definition Vocabulary_len (self : Vocabulary) : nat := size (word2idx self).

(** [Vocabulary.encode_seq] *)
Definition encode_seq (self : Vocabulary) (seq : list string) : result (list nat) :=
  mapM (Vocabulary_call self) seq.

(** [Vocabulary.decode_seq] *)
Definition decode_seq (self : Vocabulary) (seq_idx : list nat) : result (list string) :=
  mapM (dict_getitem (idx2word self)) seq_idx.

(** The state invariant of a vocabulary: the two dictionaries mirror each
    other, every id in use is below the next free one, and the unknown
    symbol has an entry. *)
Record vocab_inv (v : Vocabulary) : Prop := mk_vocab_inv {
  inv_fwd : ∀ w i, word2idx v !! w = Some i → idx2word v !! i = Some w;
  inv_bwd : ∀ i w, idx2word v !! i = Some w → word2idx v !! w = Some i;
  inv_lt : ∀ w i, word2idx v !! w = Some i → i < idx v;
  inv_unk : is_Some (word2idx v !! UNK_WORD)
}.

(** ** get_vocabulary

    [token_counts] is a [defaultdict(int)]; its [items()] come in the order
    in which the keys were first stored. *)

Fixpoint count_incr (token : string) (token_counts : list (string * nat))
  : list (string * nat) :=
  match token_counts with
  | [] => [(token, 1)]
  | (t, c) :: rest =>
      if decide (t = token) then (t, S c) :: rest
      else (t, c) :: count_incr token rest
  end.

(** The counting loop; a record is the text of its [" comment"] column. *)
Definition count_tokens (records : list string) : list (string * nat) :=
  foldl (fun token_counts record =>
           foldl (fun token_counts token => count_incr token token_counts)
                 token_counts (tokenize (PyStr.strip record)))
        [] records.

(** The assigning loop, with its threshold. *)
Definition assign_ids (vocab : Vocabulary) (token_counts : list (string * nat))
  : Vocabulary :=
  foldl (fun vocab '(token, count) =>
           if 5 <=? count then add_word vocab token else vocab)
        vocab token_counts.

Definition get_vocabulary (records : list string) : Vocabulary :=
  assign_ids Vocabulary_init (count_tokens records).

(** ** FlickrConvRNN

    An image is an opaque value; [image_open path] stands for
    [Image.open(path).convert("RGB")] and fails when the file cannot be
    read. *)

Variable Img : Type.
Variable image_open : string → result Img.

Record FlickrConvRNN : Type := mkFlickrConvRNN {
  first_caption_only : bool;
  transform : option (Img → Img);
  vocab : Vocabulary;
  image_dir : string;
  image_ids : list string;
  labels : gmap string (list string)
}.

Record Sample : Type := mkSample {
  images : list Img;
  captions : list (list nat);
  all_captions : list (list string)
}.

Definition set_labels (self : FlickrConvRNN) (l : gmap string (list string))
  : FlickrConvRNN :=
  {| first_caption_only := first_caption_only self;
     transform := transform self;
     vocab := vocab self;
     image_dir := image_dir self;
     image_ids := image_ids self;
     labels := l |}.

(** [d[key]] on a [defaultdict(list)]: an absent key is stored with the
    empty list, which is returned. *)
Definition defaultdict_getitem (d : gmap string (list string)) (key : string)
  : list string * gmap string (list string) :=
  match d !! key with
  | Some v => (v, d)
  | None => ([], <[key := []]> d)
  end.

(** The grouping loop of [__init__]:
    [self.labels[record["image_name"]].append(record[" comment"].strip())]. *)
Definition group_labels (records : list (string * string))
  : gmap string (list string) :=
  foldl (fun labels record =>
           let '(l, labels) := defaultdict_getitem labels record.1 in
           <[record.1 := l ++ [PyStr.strip record.2]]> labels)
        ∅ records.

(** [FlickrConvRNN.__init__]; [records] are the rows of the label file as
    (image_name, comment) pairs, [df["image_name"].isin(image_ids)] keeps
    the rows of this split. *)
Definition FlickrConvRNN_init (image_dir : string) (image_ids : list string)
    (records : list (string * string)) (transform : option (Img → Img))
    (vocab : Vocabulary) (first_caption_only : bool) : FlickrConvRNN :=
  {| first_caption_only := first_caption_only;
     transform := transform;
     vocab := vocab;
     image_dir := image_dir;
     image_ids := image_ids;
     labels :=
       group_labels (filter (fun r => r.1 ∈ image_ids) records) |}.

(** [FlickrConvRNN.__len__] *)
Definition FlickrConvRNN_len (self : FlickrConvRNN) : nat :=
  length (image_ids self).

(** [os.path.join(a, b)] with the POSIX separator. *)
Definition path_join (a b : string) : string :=
  match b with
  | String "/" _ => b
  | _ =>
      match String.rev a with
      | EmptyString | String "/" _ => a +:+ b
      | _ => a +:+ "/" +:+ b
      end
  end.

(** [l * n] on a list. *)
Definition list_mul {A} (l : list A) (n : nat) : list A :=
  concat (replicate n l).

(** One round of the caption loop of [__getitem__]; the state is
    ([encoded_captions], [all_captions]). *)
Definition caption_step (self : FlickrConvRNN)
    (acc : list (list nat) * list (list string)) (i : nat) (caption : string)
  : result (list (list nat) * list (list string)) :=
  let tokens := tokenize caption in
  let caption := [START_SEQ] ++ tokens ++ [END_SEQ] in
  encoded_captions ←
    (if first_caption_only self && (i =? 0)
     then (enc ← encode_seq (vocab self) caption; mret (acc.1 ++ [enc]))
     else mret acc.1);
  mret (encoded_captions, acc.2 ++ [caption]).

(** [for i, caption in enumerate(captions)], from index [i] on. *)
Fixpoint caption_loop (self : FlickrConvRNN) (i : nat) (captions : list string)
    (acc : list (list nat) * list (list string))
  : result (list (list nat) * list (list string)) :=
  match captions with
  | [] => mret acc
  | caption :: rest =>
      acc' ← caption_step self acc i caption;
      caption_loop self (S i) rest acc'
  end.

(** [FlickrConvRNN.__getitem__]: the outcome and the dataset afterwards
    (the label lookup may store a key). *)
Definition getitem (self : FlickrConvRNN) (idx : nat)
  : result Sample * FlickrConvRNN :=
  match image_ids self !! idx with
  | None => (Raise IndexError, self)
  | Some image_id =>
      let image_path := path_join (image_dir self) image_id in
      match image_open image_path with
      | Raise e => (Raise e, self)
      | Return image =>
          let images := [image] in
          let images :=
            match transform self with
            | Some f => <[0 := f image]> images
            | None => images
            end in
          let images :=
            if negb (first_caption_only self) then list_mul images 5
            else images in
          let '(captions, labels') :=
            defaultdict_getitem (labels self) image_id in
          let self' := set_labels self labels' in
          (acc ← caption_loop self' 0 captions ([], []);
           mret {| images := images;
                   captions := acc.1;
                   all_captions := acc.2 |},
           self')
      end
  end.

End Pipeline.

Arguments inv_fwd {UNK_WORD v} _ w i _.
Arguments inv_bwd {UNK_WORD v} _ i w _.
Arguments inv_lt {UNK_WORD v} _ w i _.
Arguments inv_unk {UNK_WORD v} _.
Arguments mkSample {Img} _ _ _.
Arguments images {Img} _.
Arguments captions {Img} _.
Arguments all_captions {Img} _.
Arguments first_caption_only {Img} _.
Arguments transform {Img} _.
Arguments vocab {Img} _.
Arguments image_dir {Img} _.
Arguments image_ids {Img} _.
Arguments labels {Img} _.
Arguments set_labels {Img} _ _.
Arguments FlickrConvRNN_init {Img} _ _ _ _ _ _.
Arguments getitem _ _ _ {Img} _ _ _.

(** ** BatchCollateFn *)

Section Collate.

(** The images of the samples are what [__getitem__] put there: the
    object the transform returned, or the PIL image itself when there is
    no transform. [tensor_shape image] is the shape of [image] when it is
    a torch tensor, and [None] when it is another object, which has no
    [unsqueeze]. The tensors are taken to share their dtype and device. *)
Variable Img : Type.
Variable tensor_shape : Img → option (list nat).

Record Batch : Type := mkBatch {
  batch_images : list Img;
  captions_padded : list (list nat);
  lengths : list nat;
  batch_all_captions : list (list (list string))
}.

(** [image.unsqueeze(dim=0)]: the one-row tensor that holds [image],
    given as the image and its shape. *)
Definition unsqueeze (image : Img) : result (Img * list nat) :=
  match tensor_shape image with
  | Some shape => Return (image, shape)
  | None => Raise AttributeError
  end.

(** The shape of the row of a one-row tensor once [torch.vstack] has made
    it two-dimensional at least: the row of a zero-dimensional image has
    one cell. *)
Definition row_shape (shape : list nat) : list nat :=
  match shape with
  | [] => [1]
  | _ => shape
  end.

(** [torch.vstack] on one-row tensors: they are stacked along their first
    dimension, the result is the list of the rows; an empty list is
    refused, and so are rows of different shapes. *)
Definition vstack (tensors : list (Img * list nat)) : result (list Img) :=
  match tensors with
  | [] => Raise RuntimeError
  | (_, shape) :: rest =>
      if forallb (fun t => bool_decide (row_shape t.2 = row_shape shape)) rest
      then Return tensors.*1
      else Raise RuntimeError
  end.

(** [max(l)] *)
Definition py_max (l : list nat) : result nat :=
  match l with
  | [] => Raise ValueError
  | x :: l' => Return (foldl Nat.max x l')
  end.

(** [torch.zeros(n, m).long()] *)
Definition zeros (n m : nat) : list (list nat) := replicate n (replicate m 0).

(** An id that a cell of dtype [torch.long] can hold. *)
Definition fits_long (i : nat) : bool := (Z.of_nat i <? 2 ^ 63)%Z.

(** [buf[i, :length] = torch.tensor(src, dtype=torch.long)]: the tensor
    is built first, and an id that does not fit is refused; the slice has
    [min length (width)] cells; the source must have as many, or one cell
    that is then repeated. *)
Definition setitem_prefix (buf : list (list nat)) (i length : nat)
    (src : list nat) : result (list (list nat)) :=
  if forallb fits_long src
  then
    match buf !! i with
    | None => Raise IndexError
    | Some row =>
        let n := Nat.min length (List.length row) in
        if decide (List.length src = n)
        then Return (<[i := src ++ drop n row]> buf)
        else match src with
             | [x] => Return (<[i := replicate n x ++ drop n row]> buf)
             | _ => Raise RuntimeError
             end
    end
  else Raise RuntimeError.

(** [for image in batch["images"]: images.append(image.unsqueeze(dim=0))] *)
Fixpoint gather_images (imgs : list (Img * list nat)) (l : list Img)
  : result (list (Img * list nat)) :=
  match l with
  | [] => Return imgs
  | image :: l' =>
      t ← unsqueeze image;
      gather_images (imgs ++ [t]) l'
  end.

(** The gathering loop from a given state ([images], [lengths],
    [captions], [all_captions]). *)
Fixpoint gather_from
    (state : list (Img * list nat) * list nat * list (list nat)
             * list (list (list string)))
    (data : list (Sample Img))
  : result (list (Img * list nat) * list nat * list (list nat)
            * list (list (list string))) :=
  match data with
  | [] => Return state
  | batch :: rest =>
      let '(imgs, lens, caps, alls) := state in
      let alls := alls ++ [all_captions batch] in
      imgs ← gather_images imgs (images batch);
      let '(caps, lens) :=
        foldl (fun '(caps, lens) caption =>
                 (caps ++ [caption], lens ++ [length caption]))
              (caps, lens) (captions batch) in
      gather_from (imgs, lens, caps, alls) rest
  end.

(** The gathering loop. *)
Definition gather (data : list (Sample Img))
  : result (list (Img * list nat) * list nat * list (list nat)
            * list (list (list string))) :=
  gather_from ([], [], [], []) data.

(** [for i, caption in enumerate(captions)], from index [i] on. *)
Fixpoint pad_loop (lengths : list nat) (i : nat) (captions : list (list nat))
    (buf : list (list nat)) : result (list (list nat)) :=
  match captions with
  | [] => Return buf
  | caption :: rest =>
      length ← match lengths !! i with
               | Some n => Return n
               | None => Raise IndexError
               end;
      buf' ← setitem_prefix buf i length caption;
      pad_loop lengths (S i) rest buf'
  end.

(** The images are tensors whose rows, once stacked, all have the shape
    [rs]. *)
Definition tensors_of_row (rs : list nat) (l : list Img) : Prop :=
  Forall (fun image => row_shape <$> tensor_shape image = Some rs) l.

(** Every id of every caption fits a cell of dtype [torch.long]. *)
Definition ids_fit (caps : list (list nat)) : Prop :=
  Forall (Forall (fun i => fits_long i = true)) caps.

(** [BatchCollateFn.__call__] *)
Definition BatchCollateFn_call (data : list (Sample Img)) : result Batch :=
  '(images, lengths, captions, all_captions) ← gather data;
  images ← vstack images;
  max_len ← py_max lengths;
  let captions_padded := zeros (length lengths) max_len in
  captions_padded ← pad_loop lengths 0 captions captions_padded;
  mret {| batch_images := images;
          captions_padded := captions_padded;
          lengths := lengths;
          batch_all_captions := all_captions |}.

End Collate.

Arguments mkBatch {Img} _ _ _ _.
Arguments batch_images {Img} _.
Arguments captions_padded {Img} _.
Arguments lengths {Img} _.
Arguments batch_all_captions {Img} _.

(** ** Callbacks and EarlyStopping

    A Python [float] is an IEEE 754 binary64 number: a [spec_float] with
    [prec = 53] and [emax = 1024], the operations rounding to nearest
    even. *)

Module Float.

Definition prec : Z := 53.
Definition emax : Z := 1024.

Definition valid (x : spec_float) : bool := valid_binary prec emax x.
Definition sub (x y : spec_float) : spec_float := SFsub prec emax x y.
Definition ltb (x y : spec_float) : bool := SFltb x y.
Definition leb (x y : spec_float) : bool := SFleb x y.

(** [0.0] and [float("inf")] *)
Definition zero : spec_float := S754_zero false.
Definition inf : spec_float := S754_infinity false.

(** [0.0001], the default [threshold]; [-1.0], [-0.5], [0.25], [0.5] and
    [0.75]. *)
Definition default_threshold : spec_float :=
  S754_finite false 7378697629483821 (-66).
Definition minus_one : spec_float := S754_finite true 4503599627370496 (-52).
Definition minus_half : spec_float := S754_finite true 4503599627370496 (-53).
Definition quarter : spec_float := S754_finite false 4503599627370496 (-54).
Definition half : spec_float := S754_finite false 4503599627370496 (-53).
Definition three_quarters : spec_float :=
  S754_finite false 6755399441055744 (-53).

(** Strictly positive numbers, [+inf] included. *)
Definition is_pos (r : spec_float) : bool :=
  match r with
  | S754_finite false _ _ | S754_infinity false => true
  | _ => false
  end.

(** [r] carries the sign [s], unless it is not a number. *)
Definition sign_or_nan (s : bool) (r : spec_float) : Prop :=
  match r with
  | S754_zero s' | S754_infinity s' | S754_finite s' _ _ => s' = s
  | S754_nan => True
  end.

End Float.

(** What a call leaves behind: log lines and saved files. *)
Inductive event : Type :=
  | SaveBestModel (best_score : spec_float)
  | LogBadEpoch (num_bad_epoch : nat)
  | ExitTraining (best_score : spec_float) (save_final_model : bool).

Record EarlyStopping : Type := mkEarlyStopping {
  save_final_model : bool;
  patience : Z;
  mode : string;
  threshold : spec_float;
  best_score : spec_float;
  num_bad_epoch : nat
}.

(** [EarlyStopping.__init__] *)
Definition EarlyStopping_init (save_final_model : bool) (patience : Z)
    (mode : string) (threshold : spec_float) : EarlyStopping :=
  {| save_final_model := save_final_model;
     patience := patience;
     mode := mode;
     threshold := threshold;
     best_score := if decide (mode = "max") then Float.zero else Float.inf;
     num_bad_epoch := 0 |}.

(** [Callbacks.better_score]; a mode that is neither ["max"] nor ["min"]
    falls through both tests and the method returns [None]. *)
Definition better_score (self : EarlyStopping) (score : spec_float)
  : option bool :=
  if decide (mode self = "max")
  then Some (Float.ltb (threshold self) (Float.sub score (best_score self)))
  else if decide (mode self = "min")
  then Some (Float.ltb (threshold self) (Float.sub (best_score self) score))
  else None.

(** Truth value of the result of [better_score] in an [if]. *)
Definition truthy (r : option bool) : bool :=
  match r with
  | Some b => b
  | None => false
  end.

(** [EarlyStopping.__call__]: the returned flag, the object afterwards and
    what was logged or saved. *)
Definition EarlyStopping_call (self : EarlyStopping) (score : spec_float)
  : bool * EarlyStopping * list event :=
  if truthy (better_score self score)
  then
    let self :=
      {| save_final_model := save_final_model self;
         patience := patience self;
         mode := mode self;
         threshold := threshold self;
         best_score := score;
         num_bad_epoch := 0 |} in
    (true, self, [SaveBestModel (best_score self)])
  else
    let self :=
      {| save_final_model := save_final_model self;
         patience := patience self;
         mode := mode self;
         threshold := threshold self;
         best_score := best_score self;
         num_bad_epoch := S (num_bad_epoch self) |} in
    if (patience self <=? Z.of_nat (num_bad_epoch self))%Z
    then (false, self,
          [LogBadEpoch (num_bad_epoch self);
           ExitTraining (best_score self) (save_final_model self)])
    else (true, self, [LogBadEpoch (num_bad_epoch self)]).

(** The object after a sequence of calls, one per score. *)
Definition EarlyStopping_run (self : EarlyStopping) (scores : list spec_float)
  : EarlyStopping :=
  foldl (fun self score => (EarlyStopping_call self score).1.2) self scores.

(** What holds of an [EarlyStopping] object in mode ["max"] with
    threshold [thr] all along: its best score is a number. *)
Definition max_mode_inv (thr : spec_float) (self : EarlyStopping) : Prop :=
  mode self = "max"
  ∧ threshold self = thr
  ∧ Float.valid (best_score self) = true
  ∧ best_score self ≠ S754_nan.

(** ** Notions used to state the properties of [get_vocabulary] *)

(** All tokens of the corpus, in reading order. *)
Definition all_tokens (records : list string) : list string :=
  concat (map (fun record => tokenize (PyStr.strip record)) records).

(** Number of occurrences of a token in a token list. *)
Fixpoint occurrences (t : string) (l : list string) : nat :=
  match l with
  | [] => 0
  | x :: l' => (if decide (x = t) then 1 else 0) + occurrences t l'
  end.

(** Total corpus frequency of a token. *)
Definition frequency (records : list string) (t : string) : nat :=
  occurrences t (all_tokens records).

(** The distinct tokens of a list, in the order of their first occurrence. *)
Definition first_encountered (l : list string) : list string :=
  foldl (fun seen t => if decide (t ∈ seen) then seen else seen ++ [t]) [] l.

(** ** Notions used to state further properties *)

(** The ids in use are exactly those below the next free one, and there
    are as many words as ids. *)
Definition vocab_dense (v : Vocabulary) : Prop :=
  size (word2idx v) = idx v
  ∧ ∀ i, i < idx v → is_Some (idx2word v !! i).

(** Two datasets that differ at most by keys stored with the empty list
    in [labels]. *)
Definition same_captions {Img} (a b : FlickrConvRNN Img) : Prop :=
  first_caption_only a = first_caption_only b
  ∧ transform a = transform b
  ∧ vocab a = vocab b
  ∧ image_dir a = image_dir b
  ∧ image_ids a = image_ids b
  ∧ ∀ key, default [] (labels a !! key) = default [] (labels b !! key).

(** The comments of the rows of an image, stripped, in file order. *)
Definition comments_of (records : list (string * string)) (key : string)
  : list string :=
  (fun r => PyStr.strip r.2) <$> filter (fun r => r.1 = key) records.

(** What holds of an [EarlyStopping] object in mode ["min"] with
    threshold [thr] all along. *)
Definition min_mode_inv (thr : spec_float) (self : EarlyStopping) : Prop :=
  mode self = "min"
  ∧ threshold self = thr
  ∧ Float.valid (best_score self) = true
  ∧ best_score self ≠ S754_nan.

(** The files of [callbacks.py]: [save_checkpoint] writes "best-model.pt",
    [exit_training] writes "final-model.pt" when [save_final_model] is
    set, [save_epoch_checkpoint] writes "checkpoint-model.pt" and
    [save_state_dict_checkpoint] writes "state_dict_checkpoint.pt", all
    under [output_dir]. *)
Definition best_model_path (output_dir : string) : string :=
  path_join output_dir "best-model.pt".
Definition final_model_path (output_dir : string) : string :=
  path_join output_dir "final-model.pt".
Definition epoch_checkpoint_path (output_dir : string) : string :=
  path_join output_dir "checkpoint-model.pt".
Definition state_dict_checkpoint_path (output_dir : string) : string :=
  path_join output_dir "state_dict_checkpoint.pt".

(** The files written by what a call of [EarlyStopping.__call__] did. *)
Definition written_paths (output_dir : string) (ev : event) : list string :=
  match ev with
  | SaveBestModel _ => [best_model_path output_dir]
  | ExitTraining _ true => [final_model_path output_dir]
  | ExitTraining _ false => []
  | LogBadEpoch _ => []
  end.

(** ** A small corpus and dataset, used to run the definitions *)

Module Sample_data.

(** Sample values for the reserved symbols. *)
Definition PAD : string := "<pad>".
Definition UNK_WORD : string := "<unk>".
Definition START_SEQ : string := "<start>".
Definition END_SEQ : string := "<end>".

(** "a" occurs 7 times, "dog" 5 times, "cat" 4 times. *)
Definition corpus : list string :=
  [" a dog runs "; "a dog sits"; "a dog , a cat !"; "A Dog and a cat";
   "the dog saw a cat"; "cat"].

Definition the_vocab : Vocabulary :=
  get_vocabulary PAD UNK_WORD START_SEQ END_SEQ corpus.

(** Images are stood for by their paths; every file can be read. *)
Definition open_path (path : string) : result string := Return path.

(** The label file has two rows for "1.jpg", none for "2.jpg", one for
    "4.jpg", and one row for an image outside of the split. *)
Definition rows : list (string * string) :=
  [("1.jpg", " a dog runs "); ("1.jpg", "a cat sits"); ("3.jpg", "a dog");
   ("4.jpg", "a dog")].

Definition split_ids : list string := ["1.jpg"; "2.jpg"; "4.jpg"].

Definition dataset (first_only : bool) : FlickrConvRNN string :=
  FlickrConvRNN_init "img" split_ids rows None the_vocab first_only.

Definition fetch (self : FlickrConvRNN string) (idx : nat)
  : result (Sample string) * FlickrConvRNN string :=
  getitem UNK_WORD START_SEQ END_SEQ open_path self idx.

(** The sample of "1.jpg" in full mode. *)
Definition full_sample : Sample string :=
  {| images := replicate 5 "img/1.jpg";
     captions := [];
     all_captions := [["<start>"; "a"; "dog"; "runs"; "<end>"];
                      ["<start>"; "a"; "cat"; "sits"; "<end>"]] |}.

(** The samples of "1.jpg", "2.jpg" and "4.jpg" in first-caption-only
    mode. *)
Definition first_sample_1 : Sample string :=
  {| images := ["img/1.jpg"];
     captions := [[2; 4; 5; 1; 3]];
     all_captions := [["<start>"; "a"; "dog"; "runs"; "<end>"];
                      ["<start>"; "a"; "cat"; "sits"; "<end>"]] |}.

Definition first_sample_2 : Sample string :=
  {| images := ["img/2.jpg"]; captions := []; all_captions := [] |}.

Definition first_sample_4 : Sample string :=
  {| images := ["img/4.jpg"];
     captions := [[2; 4; 5; 3]];
     all_captions := [["<start>"; "a"; "dog"; "<end>"]] |}.

End Sample_data.

(** ** The same dataset with images that tell tensors from PIL images *)

Module Tensor_data.

(** An image is the PIL image read from a path or a tensor made of it. *)
Inductive picture : Type :=
  | PilImage (path : string)
  | TensorImage (shape : list nat) (path : string).

Definition shape_of (p : picture) : option (list nat) :=
  match p with
  | PilImage _ => None
  | TensorImage shape _ => Some shape
  end.

Definition open_picture (path : string) : result picture :=
  Return (PilImage path).

(** A transform that resizes and converts to a tensor. *)
Definition to_tensor (p : picture) : picture :=
  match p with
  | PilImage path => TensorImage [3; 2; 2] path
  | TensorImage shape path => TensorImage shape path
  end.

Definition dataset (first_only : bool) : FlickrConvRNN picture :=
  FlickrConvRNN_init "img" Sample_data.split_ids Sample_data.rows
                     (Some to_tensor) Sample_data.the_vocab first_only.

(** The dataset without transform. *)
Definition plain_dataset (first_only : bool) : FlickrConvRNN picture :=
  FlickrConvRNN_init "img" Sample_data.split_ids Sample_data.rows
                     None Sample_data.the_vocab first_only.

Definition fetch (self : FlickrConvRNN picture) (idx : nat)
  : result (Sample picture) * FlickrConvRNN picture :=
  getitem Sample_data.UNK_WORD Sample_data.START_SEQ Sample_data.END_SEQ
          open_picture self idx.

Definition collate (data : list (Sample picture)) : result (Batch picture) :=
  BatchCollateFn_call picture shape_of data.

(** The samples of "1.jpg", "2.jpg" and "4.jpg" in first-caption-only
    mode, and of "1.jpg" in full mode. *)
Definition sample_1 : Sample picture :=
  {| images := [TensorImage [3; 2; 2] "img/1.jpg"];
     captions := [[2; 4; 5; 1; 3]];
     all_captions := [["<start>"; "a"; "dog"; "runs"; "<end>"];
                      ["<start>"; "a"; "cat"; "sits"; "<end>"]] |}.

Definition sample_2 : Sample picture :=
  {| images := [TensorImage [3; 2; 2] "img/2.jpg"];
     captions := [];
     all_captions := [] |}.

Definition sample_4 : Sample picture :=
  {| images := [TensorImage [3; 2; 2] "img/4.jpg"];
     captions := [[2; 4; 5; 3]];
     all_captions := [["<start>"; "a"; "dog"; "<end>"]] |}.

Definition full_sample_1 : Sample picture :=
  {| images := replicate 5 (TensorImage [3; 2; 2] "img/1.jpg");
     captions := [];
     all_captions := [["<start>"; "a"; "dog"; "runs"; "<end>"];
                      ["<start>"; "a"; "cat"; "sits"; "<end>"]] |}.

(** Three one-caption samples, with captions of lengths 3, 5 and 2. *)
Definition three_samples : list (Sample picture) :=
  [mkSample [TensorImage [3; 2; 2] "x.jpg"] [[2; 4; 3]] [];
   mkSample [TensorImage [3; 2; 2] "y.jpg"] [[2; 4; 5; 1; 3]] [];
   mkSample [TensorImage [3; 2; 2] "z.jpg"] [[2; 3]] []].

End Tensor_data.

(** * Properties *)

(** ** Tokenizer *)

Example tokenize_plain :
  tokenize "  Two Dogs  run 2day " = ["two"; "dogs"; "run"; "2day"].
Proof. reflexivity. Qed.

(** "café é" with U+00E9 as one character: both pieces are alphanumeric,
    the accented letter is removed, and the emptied piece is dropped. *)
Example tokenize_latin1 :
  tokenize ("caf" +:+ String (ascii_of_N 233) " "
            +:+ String (ascii_of_N 233) "") = ["caf"].
Proof. reflexivity. Qed.

(** C2, as stated, fails: the pieces "cat," and "sitting!" do not pass
    [isalnum] and are dropped whole, so the tokens are not
    ["a"; "cat"; "sitting"]. *)
Lemma tokenize_not_three_tokens :
  tokenize "A cat, sitting!" ≠ ["a"; "cat"; "sitting"].
Proof. vm_compute. discriminate. Qed.

Lemma lower_char_alnum c :
  PyStr.is_ascii_alnum (PyStr.lower_char c) = true →
  PyStr.is_lower_alnum (PyStr.lower_char c) = true.
Proof. destruct c as [[] [] [] [] [] [] [] []]; vm_compute; congruence. Qed.

Lemma sub_lower_chars s :
  PyStr.all_chars PyStr.is_lower_alnum (PyStr.sub_non_alnum (PyStr.lower s))
  = true.
Proof.
  induction s as [| c s IH]; [done |]. cbn [PyStr.lower PyStr.sub_non_alnum].
  destruct (PyStr.is_ascii_alnum (PyStr.lower_char c)) eqn:Hc; [| done].
  cbn [PyStr.all_chars]. by rewrite (lower_char_alnum c Hc), IH.
Qed.

(** C2, amended: tokenizing "A cat, sitting!" yields exactly ["a"]; of the
    three whitespace-delimited pieces only "A" is alphanumeric, it is kept
    and lowercased, and the two pieces carrying punctuation are dropped
    whole. Whatever the caption, every token is non-empty and made of the
    characters a-z and 0-9. *)
Theorem tokenize_example :
  tokenize "A cat, sitting!" = ["a"]
  ∧ PyStr.split "A cat, sitting!" = ["A"; "cat,"; "sitting!"]
  ∧ PyStr.isalnum "cat," = false ∧ PyStr.isalnum "sitting!" = false
  ∧ ∀ caption t,
      t ∈ tokenize caption →
      t ≠ "" ∧ PyStr.all_chars PyStr.is_lower_alnum t = true.
Proof.
  do 4 (split; [reflexivity |]).
  intros caption t Ht. unfold tokenize in Ht.
  apply list_elem_of_In, filter_In in Ht as [Ht Hne].
  apply in_map_iff in Ht as (piece & <- & _).
  split; [| apply sub_lower_chars].
  intros Hempty. by rewrite Hempty in Hne.
Qed.

(** C2, amended, at a concrete caption. *)
Lemma tokenize_example_witness :
  "2day" ∈ tokenize "Two Dogs, run 2day"
  ∧ "2day" ≠ ""
  ∧ PyStr.all_chars PyStr.is_lower_alnum "2day" = true.
Proof.
  assert (h : "2day" ∈ tokenize "Two Dogs, run 2day")
    by (vm_compute; repeat constructor).
  exact (conj h (proj2 (proj2 (proj2 (proj2 tokenize_example))) _ _ h)).
Defined.

(** ** Vocabulary *)

Section VocabularyFacts.

Variables PAD UNK_WORD START_SEQ END_SEQ : string.

Local Abbreviation reserved := (reserved_word2idx PAD UNK_WORD START_SEQ END_SEQ).
Local Abbreviation init := (Vocabulary_init PAD UNK_WORD START_SEQ END_SEQ).
Local Abbreviation call := (Vocabulary_call UNK_WORD).
Local Abbreviation encode := (encode_seq UNK_WORD).
Local Abbreviation vocab_inv := (vocab_inv UNK_WORD).

Lemma dict_invert_lookup (d : gmap string nat) :
  (∀ k1 k2 v, d !! k1 = Some v → d !! k2 = Some v → k1 = k2) →
  ∀ v k, dict_invert d !! v = Some k ↔ d !! k = Some v.
Proof.
  unfold dict_invert.
  apply (map_fold_weak_ind
           (fun (r : gmap nat string) (m : gmap string nat) =>
              (∀ k1 k2 v, m !! k1 = Some v → m !! k2 = Some v → k1 = k2) →
              ∀ v k, r !! v = Some k ↔ m !! k = Some v)).
  - intros _ v k. by rewrite !lookup_empty.
  - intros i x m r Hi IH Hinj v k.
    assert (Hm : ∀ k1 k2 v, m !! k1 = Some v → m !! k2 = Some v → k1 = k2).
    { intros k1 k2 v' H1 H2. apply (Hinj k1 k2 v').
      - rewrite lookup_insert_ne; [done | congruence].
      - rewrite lookup_insert_ne; [done | congruence]. }
    specialize (IH Hm).
    destruct (decide (x = v)) as [-> | Hv].
    + rewrite lookup_insert_eq. split.
      * intros [= <-]. by rewrite lookup_insert_eq.
      * intros Hk. f_equal. apply (Hinj i k v); [apply lookup_insert_eq | done].
    + rewrite (lookup_insert_ne r) by done. rewrite IH.
      destruct (decide (i = k)) as [-> | Hk].
      * rewrite lookup_insert_eq, Hi. split; [done | congruence].
      * by rewrite lookup_insert_ne.
Qed.

Lemma reserved_lookup w :
  reserved !! w =
    if decide (END_SEQ = w) then Some 3
    else if decide (START_SEQ = w) then Some 2
    else if decide (UNK_WORD = w) then Some 1
    else if decide (PAD = w) then Some 0
    else None.
Proof.
  unfold reserved_word2idx.
  repeat (rewrite lookup_insert; case_decide; [done |]).
  apply lookup_empty.
Qed.

Lemma reserved_injective k1 k2 v :
  reserved !! k1 = Some v → reserved !! k2 = Some v → k1 = k2.
Proof.
  rewrite !reserved_lookup.
  repeat case_decide; intros; simplify_eq; done.
Qed.

Lemma reserved_bound w i : reserved !! w = Some i → i < 4.
Proof.
  rewrite reserved_lookup. repeat case_decide; intros; simplify_eq; lia.
Qed.

Lemma init_inv : vocab_inv init.
Proof.
  split; simpl.
  - intros w i H. by apply dict_invert_lookup; [apply reserved_injective |].
  - intros i w H. by apply dict_invert_lookup in H; [| apply reserved_injective].
  - apply reserved_bound.
  - rewrite reserved_lookup. repeat case_decide; eauto. done.
Qed.

Lemma add_word_inv v word : vocab_inv v → vocab_inv (add_word v word).
Proof.
  intros [Hf Hb Hlt Hunk]. unfold add_word.
  destruct (word2idx v !! word) as [j |] eqn:Hw; [by split |].
  split; simpl.
  - intros w i. rewrite lookup_insert. case_decide as Hww.
    + intros [= <-]. subst. by rewrite lookup_insert_eq.
    + intros H. pose proof (Hlt _ _ H).
      rewrite lookup_insert_ne by lia. by apply Hf.
  - intros i w. rewrite lookup_insert. case_decide as Hi.
    + intros [= <-]. subst. by rewrite lookup_insert_eq.
    + intros H. apply Hb in H.
      rewrite lookup_insert_ne; [done | congruence].
  - intros w i. rewrite lookup_insert. case_decide as Hww.
    + intros [= <-]. lia.
    + intros Hi. apply Hlt in Hi. lia.
  - destruct Hunk as [u Hu]. rewrite lookup_insert. case_decide; eauto.
Qed.

Lemma add_words_inv words v :
  vocab_inv v → vocab_inv (foldl add_word v words).
Proof.
  revert v. induction words as [| w words IH]; intros v Hv; simpl; [done |].
  apply IH. by apply add_word_inv.
Qed.

Lemma call_present v word i :
  word2idx v !! word = Some i → call v word = Return i.
Proof. intros H. unfold Vocabulary_call, dict_getitem. by rewrite H. Qed.

Lemma call_absent v word unk :
  word2idx v !! word = None → word2idx v !! UNK_WORD = Some unk →
  call v word = Return unk.
Proof. intros H Hu. unfold Vocabulary_call, dict_getitem. by rewrite H, Hu. Qed.

Lemma encode_decode_present v tokens :
  vocab_inv v →
  Forall (fun t => is_Some (word2idx v !! t)) tokens →
  ∃ ids, encode v tokens = Return ids ∧ decode_seq v ids = Return tokens.
Proof.
  intros Hv. induction 1 as [| t tokens [i Hi] _ (ids & He & Hd)].
  - by exists [].
  - exists (i :: ids). unfold encode_seq, decode_seq in *. simpl.
    rewrite (call_present _ _ _ Hi). simpl. rewrite He. simpl.
    split; [done |]. rewrite Hd. unfold dict_getitem.
    by rewrite (inv_fwd Hv _ _ Hi).
Qed.

Lemma add_word_lookup_mono v word w i :
  word2idx v !! w = Some i → word2idx (add_word v word) !! w = Some i.
Proof.
  intros H. unfold add_word.
  destruct (word2idx v !! word) eqn:Hw; [done |]. simpl.
  rewrite lookup_insert_ne; [done | congruence].
Qed.

Lemma add_words_lookup_mono words v w i :
  word2idx v !! w = Some i → word2idx (foldl add_word v words) !! w = Some i.
Proof.
  revert v. induction words as [| x words IH]; intros v H; simpl; [done |].
  by apply IH, add_word_lookup_mono.
Qed.

(** C6: on a vocabulary built from the initial one by any sequence of
    [add_word] calls, encoding a sequence of tokens that are all present
    and decoding the result gives the sequence back; a token that is
    absent is encoded as the id of [UNK_WORD], and decoding that id gives
    [UNK_WORD], which is not the token. *)
Theorem encode_decode_roundtrip (words tokens : list string) (token : string) :
  let v := foldl add_word init words in
  (Forall (fun t => is_Some (word2idx v !! t)) tokens →
   ∃ ids, encode v tokens = Return ids ∧ decode_seq v ids = Return tokens)
  ∧ (word2idx v !! token = None →
     ∃ unk, word2idx v !! UNK_WORD = Some unk
            ∧ call v token = Return unk
            ∧ encode v [token] = Return [unk]
            ∧ decode_seq v [unk] = Return [UNK_WORD]
            ∧ UNK_WORD ≠ token).
Proof.
  intros v.
  assert (Hv : vocab_inv v) by apply add_words_inv, init_inv.
  split.
  - by apply encode_decode_present.
  - intros Habs. destruct (inv_unk Hv) as [unk Hu]. exists unk.
    pose proof (call_absent _ _ _ Habs Hu) as Hc.
    repeat split; try done.
    + unfold encode_seq. simpl. by rewrite Hc.
    + unfold decode_seq, dict_getitem. simpl.
      by rewrite (inv_fwd Hv _ _ Hu).
    + congruence.
Qed.

(** C9: when the four reserved symbols are pairwise distinct, after
    construction and any sequence of [add_word] calls [idx2word] is exactly
    the inverse of [word2idx], [word2idx] is injective, and [PAD],
    [UNK_WORD], [START_SEQ], [END_SEQ] still have the ids 0, 1, 2, 3. *)
Theorem vocabulary_bijection_reserved (words : list string) :
  NoDup [PAD; UNK_WORD; START_SEQ; END_SEQ] →
  let v := foldl add_word init words in
  (∀ w i, word2idx v !! w = Some i ↔ idx2word v !! i = Some w)
  ∧ (∀ w1 w2 i,
       word2idx v !! w1 = Some i → word2idx v !! w2 = Some i → w1 = w2)
  ∧ (word2idx v !! PAD = Some 0 ∧ word2idx v !! UNK_WORD = Some 1
     ∧ word2idx v !! START_SEQ = Some 2 ∧ word2idx v !! END_SEQ = Some 3)
  ∧ (idx2word v !! 0 = Some PAD ∧ idx2word v !! 1 = Some UNK_WORD
     ∧ idx2word v !! 2 = Some START_SEQ ∧ idx2word v !! 3 = Some END_SEQ).
Proof.
  intros Hnd v.
  assert (Hv : vocab_inv v) by apply add_words_inv, init_inv.
  assert (Hres : word2idx v !! PAD = Some 0 ∧ word2idx v !! UNK_WORD = Some 1
     ∧ word2idx v !! START_SEQ = Some 2 ∧ word2idx v !! END_SEQ = Some 3).
  { apply NoDup_cons in Hnd as [H1 Hnd]. apply NoDup_cons in Hnd as [H2 Hnd].
    apply NoDup_cons in Hnd as [H3 _].
    set_unfold.
    repeat split; apply add_words_lookup_mono; simpl;
      rewrite reserved_lookup; repeat case_decide; naive_solver. }
  split; [| split; [| split; [done |]]].
  - intros w i. split; [apply (inv_fwd Hv) | apply (inv_bwd Hv)].
  - intros w1 w2 i H1 H2.
    apply (inv_fwd Hv) in H1. apply (inv_fwd Hv) in H2. congruence.
  - destruct Hres as (H0 & H1 & H2 & H3).
    repeat split; by apply (inv_fwd Hv).
Qed.

End VocabularyFacts.

(** ** get_vocabulary *)

Section CountingFacts.

Lemma occurrences_app t l1 l2 :
  occurrences t (l1 ++ l2) = occurrences t l1 + occurrences t l2.
Proof. induction l1 as [| x l1 IH]; simpl; [done |]. rewrite IH. lia. Qed.

Lemma occurrences_not_elem t l : t ∉ l → occurrences t l = 0.
Proof.
  induction l as [| x l IH]; simpl; [done |].
  rewrite not_elem_of_cons. intros [Hx Hl].
  rewrite decide_False by congruence. by rewrite IH.
Qed.

Lemma first_encountered_snoc l t :
  first_encountered (l ++ [t]) =
    if decide (t ∈ first_encountered l) then first_encountered l
    else first_encountered l ++ [t].
Proof. unfold first_encountered. by rewrite foldl_snoc. Qed.

Lemma first_encountered_elem l t : t ∈ first_encountered l ↔ t ∈ l.
Proof.
  induction l as [| x l IH] using rev_ind.
  - done.
  - rewrite first_encountered_snoc. case_decide as Hx.
    + rewrite elem_of_app, list_elem_of_singleton, <- IH.
      split; [auto | intros [? | ->]; done].
    + by rewrite !elem_of_app, IH.
Qed.

Lemma first_encountered_NoDup l : NoDup (first_encountered l).
Proof.
  induction l as [| x l IH] using rev_ind.
  - constructor.
  - rewrite first_encountered_snoc. case_decide as Hx; [done |].
    apply NoDup_app. split; [done |]. split.
    + intros y Hy. rewrite list_elem_of_singleton. by intros ->.
    + apply NoDup_singleton.
Qed.

Lemma count_incr_fmap t (g : string → nat) l :
  NoDup l →
  count_incr t ((fun x => (x, g x)) <$> l) =
    ((fun x => (x, if decide (x = t) then S (g x) else g x)) <$> l)
    ++ (if decide (t ∈ l) then [] else [(t, 1)]).
Proof.
  induction 1 as [| x l Hx Hnd IH]; csimpl.
  - by destruct (decide (t ∈ [])) as [?%elem_of_nil |].
  - destruct (decide (x = t)) as [-> | Hne].
    + rewrite (decide_True (P := t ∈ t :: l)) by apply list_elem_of_here.
      rewrite app_nil_r. f_equal.
      apply list_fmap_ext. intros i y Hy.
      rewrite decide_False; [done |].
      intros ->. apply Hx. by eapply list_elem_of_lookup_2.
    + rewrite IH. do 2 f_equal.
      destruct (decide (t ∈ l)) as [Hl | Hl].
      * rewrite decide_True; [done | by apply list_elem_of_further].
      * rewrite decide_False; [done |].
        rewrite not_elem_of_cons. split; [congruence | done].
Qed.

(** The counting dictionary after reading a token list: one entry per
    distinct token, in first-encounter order, with its number of
    occurrences. *)
Lemma count_fold toks :
  foldl (fun token_counts token => count_incr token token_counts) [] toks =
    (fun t => (t, occurrences t toks)) <$> first_encountered toks.
Proof.
  induction toks as [| t toks IH] using rev_ind; [done |].
  rewrite foldl_snoc, IH, first_encountered_snoc.
  rewrite count_incr_fmap by apply first_encountered_NoDup.
  assert (Hocc : ∀ x, occurrences x (toks ++ [t]) =
                      if decide (x = t) then S (occurrences x toks)
                      else occurrences x toks).
  { intros x. rewrite occurrences_app. simpl.
    destruct (decide (t = x)) as [-> | Hne].
    - rewrite decide_True by done. lia.
    - rewrite decide_False by congruence. lia. }
  case_decide as Ht.
  - rewrite app_nil_r. apply list_fmap_ext. intros i x _. by rewrite Hocc.
  - rewrite fmap_app. simpl. f_equal.
    + apply list_fmap_ext. intros i x _. by rewrite Hocc.
    + rewrite Hocc, decide_True by done.
      rewrite occurrences_not_elem; [done |].
      by rewrite <- first_encountered_elem.
Qed.

Lemma count_tokens_fold records :
  count_tokens records =
    foldl (fun token_counts token => count_incr token token_counts) []
          (all_tokens records).
Proof.
  unfold count_tokens, all_tokens.
  generalize (@nil (string * nat)).
  induction records as [| r records IH]; intros acc; simpl; [done |].
  by rewrite foldl_app, IH.
Qed.

Lemma count_tokens_spec records :
  count_tokens records =
    (fun t => (t, frequency records t)) <$> first_encountered (all_tokens records).
Proof. by rewrite count_tokens_fold, count_fold. Qed.

End CountingFacts.

Section GetVocabularyFacts.

Variables PAD UNK_WORD START_SEQ END_SEQ : string.

Local Abbreviation reserved := (reserved_word2idx PAD UNK_WORD START_SEQ END_SEQ).
Local Abbreviation init := (Vocabulary_init PAD UNK_WORD START_SEQ END_SEQ).
Local Abbreviation build := (get_vocabulary PAD UNK_WORD START_SEQ END_SEQ).

Lemma assign_ids_fold counts v :
  assign_ids v counts =
    foldl add_word v (filter (fun p => 5 ≤ p.2) counts).*1.
Proof.
  unfold assign_ids. revert v.
  induction counts as [| [t c] counts IH]; intros v; [done |].
  rewrite filter_cons. cbn [foldl snd].
  destruct (Nat.leb_spec 5 c) as [Hc | Hc].
  - rewrite decide_True by done. csimpl. apply IH.
  - rewrite decide_False by lia. apply IH.
Qed.

Lemma qualifying_tokens (g : string → nat) l :
  (filter (fun p => 5 ≤ p.2) ((fun t => (t, g t)) <$> l)).*1 =
    filter (fun t => 5 ≤ g t) l.
Proof.
  induction l as [| t l IH]; [done |].
  csimpl. rewrite !filter_cons. simpl.
  case_decide; csimpl; by rewrite IH.
Qed.

(** The vocabulary is the initial one extended, in first-encounter order,
    with the tokens that occur at least five times. *)
Lemma get_vocabulary_fold records :
  build records =
    foldl add_word init
          (filter (fun t => 5 ≤ frequency records t)
                  (first_encountered (all_tokens records))).
Proof.
  unfold get_vocabulary.
  by rewrite assign_ids_fold, count_tokens_spec, qualifying_tokens.
Qed.

Lemma add_word_present v word : is_Some (word2idx (add_word v word) !! word).
Proof.
  unfold add_word. destruct (word2idx v !! word) eqn:Hw.
  - rewrite Hw. eauto.
  - simpl. rewrite lookup_insert_eq. eauto.
Qed.

Lemma add_words_present ws v w :
  w ∈ ws → is_Some (word2idx (foldl add_word v ws) !! w).
Proof.
  revert v. induction ws as [| x ws IH]; intros v; [by intros ?%elem_of_nil |].
  rewrite elem_of_cons. simpl. intros [-> | Hw]; [| by apply IH].
  destruct (add_word_present v x) as [i Hi].
  exists i. by apply add_words_lookup_mono.
Qed.

Lemma add_word_other v word w :
  w ≠ word → word2idx (add_word v word) !! w = word2idx v !! w.
Proof.
  intros Hne. unfold add_word.
  destruct (word2idx v !! word); [done |]. simpl.
  by rewrite lookup_insert_ne.
Qed.

Lemma add_words_absent ws v w :
  w ∉ ws → word2idx (foldl add_word v ws) !! w = word2idx v !! w.
Proof.
  revert v. induction ws as [| x ws IH]; intros v; [done |].
  rewrite not_elem_of_cons. intros [Hne Hw]. simpl.
  rewrite IH by done. by apply add_word_other.
Qed.

Lemma filter_ext_elem {A} (P Q : A → Prop)
    `{∀ x, Decision (P x)} `{∀ x, Decision (Q x)} (l : list A) :
  (∀ x, x ∈ l → (P x ↔ Q x)) → filter P l = filter Q l.
Proof.
  induction l as [| x l IH]; intros Hext; [done |].
  rewrite !filter_cons.
  assert (Hl : filter P l = filter Q l).
  { apply IH. intros y Hy. apply Hext. by apply list_elem_of_further. }
  pose proof (Hext x (list_elem_of_here x l)) as Hx.
  destruct (decide (P x)), (decide (Q x)); rewrite ?Hl; tauto.
Qed.

(** Adding distinct words: those that are new receive the next free ids,
    one after the other, in the order of the list. *)
Lemma add_words_fresh ws v k w :
  NoDup ws →
  filter (fun w => word2idx v !! w = None) ws !! k = Some w →
  word2idx (foldl add_word v ws) !! w = Some (idx v + k).
Proof.
  intros Hnd. revert v k.
  induction Hnd as [| x ws Hx Hnd IH]; intros v k; [done |].
  rewrite filter_cons. simpl.
  destruct (decide (word2idx v !! x = None)) as [Habs | Hpres].
  - assert (Hfil : filter (fun w => word2idx (add_word v x) !! w = None) ws
                   = filter (fun w => word2idx v !! w = None) ws).
    { apply filter_ext_elem. intros y Hy.
      rewrite add_word_other; [done | by intros ->]. }
    assert (Hidx : idx (add_word v x) = S (idx v)).
    { unfold add_word. by rewrite Habs. }
    destruct k as [| k]; simpl.
    + intros [= <-]. apply add_words_lookup_mono.
      unfold add_word. rewrite Habs. simpl.
      rewrite lookup_insert_eq. f_equal. lia.
    + intros Hk. rewrite <- Hfil in Hk. apply IH in Hk.
      rewrite Hk, Hidx. f_equal. lia.
  - intros Hk.
    assert (add_word v x = v) as ->; [| by apply IH].
    unfold add_word. by destruct (word2idx v !! x).
Qed.

(** C8: in the vocabulary built by [get_vocabulary], whose threshold is 5,
    a token of corpus frequency exactly 5 has an id; a token of frequency 4
    that is not a reserved symbol has none; and the tokens of frequency at
    least 5 that are not reserved symbols, taken in the order of their
    first occurrence in the corpus, have the ids 4, 5, 6, ... *)
Theorem get_vocabulary_threshold (records : list string) :
  let v := build records in
  let included :=
    filter (fun t => reserved !! t = None)
           (filter (fun t => 5 ≤ frequency records t)
                   (first_encountered (all_tokens records))) in
  (∀ t, frequency records t = 5 → is_Some (word2idx v !! t))
  ∧ (∀ t, frequency records t = 4 → reserved !! t = None →
          word2idx v !! t = None)
  ∧ (∀ k t, included !! k = Some t → word2idx v !! t = Some (4 + k)).
Proof.
  intros v included. subst v included.
  rewrite get_vocabulary_fold.
  split; [| split].
  - intros t Ht. apply add_words_present.
    rewrite list_elem_of_filter, first_encountered_elem. split; [lia |].
    destruct (decide (t ∈ all_tokens records)) as [| Hn]; [done |].
    apply occurrences_not_elem in Hn. unfold frequency in Ht. lia.
  - intros t Ht Hres. rewrite add_words_absent; [done |].
    rewrite list_elem_of_filter. lia.
  - intros k t Hk.
    apply (add_words_fresh _ init k t); [| done].
    apply NoDup_filter, first_encountered_NoDup.
Qed.

End GetVocabularyFacts.

(** ** FlickrConvRNN *)

Section DatasetFacts.

Variables PAD UNK_WORD START_SEQ END_SEQ : string.
Variable Img : Type.
Variable image_open : string → result Img.

Local Abbreviation fetch := (getitem UNK_WORD START_SEQ END_SEQ image_open).
Local Abbreviation loop := (caption_loop UNK_WORD START_SEQ END_SEQ Img).
Local Abbreviation wrap :=
  (fun caption : string => [START_SEQ] ++ tokenize caption ++ [END_SEQ]).

(** A round of the caption loop that does not encode: in full mode, and
    in first-caption-only mode from the second caption on. *)
Lemma caption_loop_skip (self : FlickrConvRNN Img) i caps acc :
  first_caption_only self = false ∨ 0 < i →
  loop self i caps acc = Return (acc.1, acc.2 ++ (wrap <$> caps)).
Proof.
  intros Hskip. revert i acc Hskip.
  induction caps as [| c caps IH]; intros i acc Hskip; simpl.
  - rewrite app_nil_r. by destruct acc.
  - unfold caption_step.
    assert (first_caption_only self && (i =? 0) = false) as ->.
    { destruct Hskip as [-> | Hi]; [done |].
      destruct i; [lia | apply andb_false_r]. }
    simpl. rewrite IH by (right; lia). simpl.
    by rewrite <- app_assoc.
Qed.

(** The caption loop in first-caption-only mode: the first caption is
    encoded, all are kept as token lists. *)
Lemma caption_loop_first (self : FlickrConvRNN Img) c caps :
  first_caption_only self = true →
  loop self 0 (c :: caps) ([], []) =
    (enc ← encode_seq UNK_WORD (vocab self) (wrap c);
     mret ([enc], wrap <$> c :: caps)).
Proof.
  intros Hfirst. cbn [caption_loop]. unfold caption_step.
  rewrite Hfirst. cbn [andb Nat.eqb fst snd].
  destruct (encode_seq UNK_WORD (vocab self) _) as [enc | e]; [| done].
  cbn. by rewrite caption_loop_skip by (right; lia).
Qed.

Lemma defaultdict_getitem_absent (d : gmap string (list string)) key :
  d !! key = None → defaultdict_getitem d key = ([], <[key := []]> d).
Proof. intros H. unfold defaultdict_getitem. by rewrite H. Qed.

Lemma group_labels_absent (records : list (string * string)) key :
  Forall (fun r => r.1 ≠ key) records → group_labels records !! key = None.
Proof.
  unfold group_labels. intros Hrec.
  assert (Hgen : ∀ acc : gmap string (list string), acc !! key = None →
    foldl (fun labels record =>
             let '(l, labels) := defaultdict_getitem labels record.1 in
             <[record.1 := l ++ [PyStr.strip record.2]]> labels)
          acc records !! key = None); [| by apply Hgen].
  induction Hrec as [| r records Hr _ IH]; intros acc Hacc; simpl; [done |].
  apply IH. unfold defaultdict_getitem.
  destruct (acc !! r.1); simpl.
  - by rewrite lookup_insert_ne.
  - by rewrite !lookup_insert_ne.
Qed.

(** In full mode no caption is encoded, whatever the sample. *)
Lemma getitem_full_mode (self : FlickrConvRNN Img) idx s self' :
  first_caption_only self = false →
  fetch self idx = (Return s, self') →
  captions s = [] ∧ length (images s) = 5
  ∧ ∃ caps, labels self' !! (image_ids self !!! idx) = Some caps
            ∧ all_captions s = wrap <$> caps.
Proof.
  intros Hfull. unfold getitem.
  destruct (image_ids self !! idx) as [image_id |] eqn:Hid; [| done].
  rewrite (list_lookup_total_correct _ _ _ Hid).
  destruct (image_open _) as [image |]; [| done].
  rewrite Hfull. simpl.
  destruct (defaultdict_getitem (labels self) image_id) as [caps labels'] eqn:Hd.
  rewrite caption_loop_skip by (left; done). simpl.
  intros [= <- <-]. simpl.
  split; [done |]. split; [by destruct (transform self) |].
  exists caps. split; [| done].
  unfold defaultdict_getitem in Hd.
  destruct (labels self !! image_id) eqn:Hl; simplify_eq; [done |].
  apply lookup_insert_eq.
Qed.

(** In first-caption-only mode the sample carries one image and the
    encoding of its first caption. *)
Lemma getitem_first_caption (self : FlickrConvRNN Img) idx image_id c caps
    image enc :
  first_caption_only self = true →
  image_ids self !! idx = Some image_id →
  labels self !! image_id = Some (c :: caps) →
  image_open (path_join (image_dir self) image_id) = Return image →
  encode_seq UNK_WORD (vocab self) (wrap c) = Return enc →
  ∃ s, fetch self idx = (Return s, self)
       ∧ length (images s) = 1
       ∧ captions s = [enc]
       ∧ all_captions s = wrap <$> c :: caps.
Proof.
  intros Hfirst Hid Hl Himg Henc. unfold getitem.
  rewrite Hid, Himg, Hfirst. unfold defaultdict_getitem. rewrite Hl.
  cbn [negb]. rewrite caption_loop_first by done.
  cbn [vocab set_labels]. rewrite Henc. cbn.
  eexists. split.
  - f_equal. by destruct self.
  - cbn. split; [by destruct (transform self) | done].
Qed.

(** What a sample fetched in first-caption-only mode looks like when the
    image has a caption. *)
Lemma getitem_first_only (self : FlickrConvRNN Img) idx image_id c caps s
    self' :
  first_caption_only self = true →
  image_ids self !! idx = Some image_id →
  labels self !! image_id = Some (c :: caps) →
  fetch self idx = (Return s, self') →
  length (images s) = 1
  ∧ length (captions s) = 1
  ∧ encode_seq UNK_WORD (vocab self) (wrap c) = Return (captions s !!! 0)
  ∧ all_captions s = wrap <$> c :: caps.
Proof.
  intros Hfirst Hid Hl. unfold getitem.
  rewrite Hid. destruct (image_open _) as [image |]; [| done].
  rewrite Hfirst. unfold defaultdict_getitem. rewrite Hl.
  cbn [negb]. rewrite caption_loop_first by done. cbn [vocab set_labels].
  destruct (encode_seq UNK_WORD (vocab self) _) as [enc |]; [| done].
  cbn. intros [= <- <-]. cbn.
  by destruct (transform self).
Qed.

(** C1, in full mode, does not hold of the code: with
    [first_caption_only = false] the test
    [self.first_caption_only and i == 0] is false in every round, so the
    sample is returned with "captions" empty although [caps], the raw
    captions of the image, are all there in "all_captions". *)
Theorem getitem_full_mode_encodes_nothing (self : FlickrConvRNN Img) idx
    image_id caps image :
  first_caption_only self = false →
  image_ids self !! idx = Some image_id →
  labels self !! image_id = Some caps →
  image_open (path_join (image_dir self) image_id) = Return image →
  ∃ s, (fetch self idx).1 = Return s
       ∧ captions s = []
       ∧ all_captions s = wrap <$> caps.
Proof.
  intros Hfull Hid Hl Himg. unfold getitem.
  rewrite Hid, Himg, Hfull. unfold defaultdict_getitem. rewrite Hl.
  rewrite caption_loop_skip by (left; done). cbn.
  eexists. split; [done |]. by cbn.
Qed.

(** C5, amended: fetching the sample of an image identifier of the split
    for which the label file has no row does not fail once the image is
    read: the lookup in the [defaultdict] stores the identifier with an
    empty list, and the sample is returned with its image(s), with
    "captions" empty and "all_captions" empty. *)
Theorem getitem_no_captions (dir : string) (ids : list string)
    (records : list (string * string)) (tr : option (Img → Img))
    (voc : Vocabulary) (first_only : bool)
    (idx : nat) (image_id : string) (image : Img) :
  let self := FlickrConvRNN_init dir ids records tr voc first_only in
  ids !! idx = Some image_id →
  Forall (fun r => r.1 ≠ image_id) records →
  image_open (path_join dir image_id) = Return image →
  ∃ s, fetch self idx
         = (Return s, set_labels self (<[image_id := []]> (labels self)))
       ∧ images s ≠ []
       ∧ captions s = []
       ∧ all_captions s = [].
Proof.
  intros self Hid Hrec Himg.
  assert (Hl : labels self !! image_id = None).
  { apply group_labels_absent. apply Forall_forall. intros r Hr.
    apply list_elem_of_filter in Hr as [_ Hr].
    by apply (proj1 (Forall_forall _ _) Hrec). }
  unfold getitem. cbn [image_ids image_dir self FlickrConvRNN_init].
  rewrite Hid, Himg.
  rewrite (defaultdict_getitem_absent _ _ Hl).
  cbn. eexists. split; [done |]. cbn.
  split; [| done].
  destruct tr, first_only; done.
Qed.

End DatasetFacts.

(** ** BatchCollateFn *)

Section CollateFacts.

Variable Img : Type.
Variable tensor_shape : Img → option (list nat).

(** The three flattened columns of a list of samples. *)
Local Abbreviation flat_images := (fun data : list (Sample Img) => concat (images <$> data)).
Local Abbreviation flat_captions := (fun data : list (Sample Img) => concat (captions <$> data)).

(** A caption row padded with zeros to the width [m]. *)
Local Abbreviation pad := (fun (m : nat) (c : list nat) => c ++ replicate (m - length c) 0).

(** The one-row tensors of a list of tensor images. *)
Local Abbreviation rows_of :=
  (fun l : list Img => (fun image => (image, default [] (tensor_shape image))) <$> l).

Local Abbreviation call := (BatchCollateFn_call Img tensor_shape).
Local Abbreviation all_tensors :=
  (Forall (fun image : Img => is_Some (tensor_shape image))).
Local Abbreviation some_other :=
  (Exists (fun image : Img => tensor_shape image = None)).

Lemma tensors_or_other (l : list Img) : all_tensors l ∨ some_other l.
Proof.
  induction l as [| image l [IH | IH]].
  - left. constructor.
  - destruct (tensor_shape image) as [shape |] eqn:Hs.
    + left. constructor; [by rewrite Hs | done].
    + right. by constructor.
  - right. by apply Exists_cons_tl.
Qed.

Lemma tensors_of_row_all rs (l : list Img) :
  tensors_of_row Img tensor_shape rs l → all_tensors l.
Proof.
  intros Hrow. eapply Forall_impl; [exact Hrow |]. cbn. intros image Hs.
  destruct (tensor_shape image); [eauto | discriminate].
Qed.

Lemma gather_images_tensors (l : list Img) imgs :
  all_tensors l →
  gather_images Img tensor_shape imgs l = Return (imgs ++ rows_of l).
Proof.
  intros Hl. revert imgs.
  induction Hl as [| image l [shape Hs] _ IH]; intros imgs; csimpl.
  - by rewrite app_nil_r.
  - unfold unsqueeze. rewrite Hs. cbn. by rewrite IH, <- app_assoc.
Qed.

Lemma gather_images_other (l : list Img) imgs :
  some_other l →
  gather_images Img tensor_shape imgs l = Raise AttributeError.
Proof.
  intros Hl. revert imgs.
  induction Hl as [image l Hs | image l _ IH]; intros imgs; cbn.
  - unfold unsqueeze. by rewrite Hs.
  - unfold unsqueeze. destruct (tensor_shape image); cbn; [apply IH | done].
Qed.

Lemma gather_captions (l : list (list nat)) caps lens :
  foldl (fun '(caps, lens) caption =>
           (caps ++ [caption], lens ++ [length caption]))
        (caps, lens) l
  = (caps ++ l, lens ++ (length <$> l)).
Proof.
  revert caps lens. induction l as [| x l IH]; intros caps lens; csimpl.
  - by rewrite !app_nil_r.
  - by rewrite IH, <- !app_assoc.
Qed.

Lemma gather_from_tensors (data : list (Sample Img)) imgs lens caps alls :
  all_tensors (flat_images data) →
  gather_from Img tensor_shape (imgs, lens, caps, alls) data
  = Return (imgs ++ rows_of (flat_images data),
            lens ++ (length <$> flat_captions data),
            caps ++ flat_captions data,
            alls ++ (all_captions <$> data)).
Proof.
  revert imgs lens caps alls.
  induction data as [| s data IH]; intros imgs lens caps alls Hall; csimpl.
  - by rewrite !app_nil_r.
  - csimpl in Hall. apply Forall_app in Hall as [Hs Hdata].
    rewrite gather_images_tensors by done. cbn.
    rewrite gather_captions, IH by done.
    by rewrite !fmap_app, <- !app_assoc.
Qed.

Lemma gather_from_other (data : list (Sample Img)) state :
  some_other (flat_images data) →
  gather_from Img tensor_shape state data = Raise AttributeError.
Proof.
  revert state.
  induction data as [| s data IH]; intros [[[imgs lens] caps] alls] Hex;
    csimpl in *.
  - by apply Exists_nil in Hex.
  - destruct (tensors_or_other (images s)) as [Hs | Hs].
    + rewrite gather_images_tensors by done. cbn.
      rewrite gather_captions. apply IH.
      apply Exists_app in Hex as [Hex | Hex]; [| done].
      apply Exists_exists in Hex as (image & Hin & Hnone).
      apply (proj1 (Forall_forall _ _) Hs) in Hin as [? ?]. congruence.
    + by rewrite gather_images_other.
Qed.

Lemma gather_spec (data : list (Sample Img)) :
  all_tensors (flat_images data) →
  gather Img tensor_shape data
  = Return (rows_of (flat_images data),
            length <$> flat_captions data,
            flat_captions data,
            all_captions <$> data).
Proof. intros Hall. unfold gather. by rewrite gather_from_tensors. Qed.

Lemma vstack_rows rs (l : list Img) :
  l ≠ [] → tensors_of_row Img tensor_shape rs l →
  vstack Img (rows_of l) = Return l.
Proof.
  destruct l as [| x l]; [done |]. intros _ Hrow.
  apply Forall_cons in Hrow as [Hx Hl]. unfold vstack. csimpl.
  assert (forallb (fun t : Img * list nat =>
                     bool_decide (row_shape t.2
                                  = row_shape (default [] (tensor_shape x))))
                  (rows_of l) = true) as ->.
  { induction Hl as [| y l Hy _ IH]; [done |]. csimpl.
    rewrite IH, andb_true_r. apply bool_decide_eq_true.
    destruct (tensor_shape x), (tensor_shape y); csimpl in *; congruence. }
  do 2 f_equal. clear. induction l as [| y l IH]; csimpl; [done |].
  by rewrite IH.
Qed.

Lemma vstack_mixed (l : list Img) :
  all_tensors l →
  (∀ rs, ¬ tensors_of_row Img tensor_shape rs l) →
  vstack Img (rows_of l) = Raise RuntimeError.
Proof.
  intros Hall Hmixed. destruct l as [| x l]; [done |].
  unfold vstack. csimpl.
  destruct (forallb _ _) eqn:Hsame; [| done].
  destruct (Hmixed (row_shape (default [] (tensor_shape x)))).
  apply Forall_cons in Hall as [[sx Hx] Hl].
  constructor; [by rewrite Hx |].
  apply Forall_forall. intros y Hy.
  destruct (proj1 (Forall_forall _ _) Hl y Hy) as [sy Hsy].
  rewrite Hsy. cbn. f_equal.
  assert (Hin : (y, default [] (tensor_shape y)) ∈ rows_of l).
  { apply list_elem_of_fmap. by exists y. }
  apply list_elem_of_In in Hin.
  apply (proj1 (forallb_forall _ _) Hsame), bool_decide_eq_true in Hin.
  cbn in Hin. by rewrite Hsy in Hin.
Qed.

Lemma foldl_max_spec l x :
  (x ≤ foldl Nat.max x l)
  ∧ Forall (fun y => y ≤ foldl Nat.max x l) l
  ∧ (foldl Nat.max x l = x ∨ foldl Nat.max x l ∈ l).
Proof.
  revert x. induction l as [| y l IH]; intros x; simpl.
  - split; [lia |]. split; [constructor | by left].
  - destruct (IH (x `max` y)) as (H1 & H2 & H3).
    split; [lia |]. split; [constructor; [lia | done] |].
    destruct H3 as [H3 | H3].
    + rewrite H3. destruct (Nat.max_spec x y) as [[_ ->] | [_ ->]].
      * right. apply list_elem_of_here.
      * by left.
    + right. by apply list_elem_of_further.
Qed.

(** [max] of a non-empty list: an element of the list that bounds all. *)
Lemma py_max_spec l :
  l ≠ [] →
  ∃ m, py_max l = Return m ∧ m ∈ l ∧ Forall (fun y => y ≤ m) l.
Proof.
  destruct l as [| x l]; [done |]. intros _.
  destruct (foldl_max_spec l x) as (H1 & H2 & H3).
  exists (foldl Nat.max x l). split; [done |]. split.
  - destruct H3 as [-> | H3];
      [apply list_elem_of_here | by apply list_elem_of_further].
  - by constructor.
Qed.

Lemma forallb_fits (c : list nat) :
  Forall (fun i => fits_long i = true) c → forallb fits_long c = true.
Proof. induction 1 as [| i c Hi _ IH]; [done |]. cbn. by rewrite Hi, IH. Qed.

Lemma forallb_overflow (c : list nat) :
  ¬ Forall (fun i => fits_long i = true) c → forallb fits_long c = false.
Proof.
  intros Hc. destruct (forallb fits_long c) eqn:Hb; [| done].
  destruct Hc. apply Forall_forall. intros i Hi.
  by apply (proj1 (forallb_forall _ _) Hb), list_elem_of_In.
Qed.

(** One round of the padding loop on a fresh row. *)
Lemma setitem_fresh_row (m : nat) (c : list nat) (done rest : list (list nat)) :
  length c ≤ m →
  setitem_prefix ((pad m <$> done) ++ replicate m 0 :: rest)
                 (length done) (length c) c
  = if forallb fits_long c
    then Return ((pad m <$> done ++ [c]) ++ rest)
    else Raise RuntimeError.
Proof.
  intros Hc. unfold setitem_prefix.
  destruct (forallb fits_long c); [| done].
  rewrite lookup_app_r by (by rewrite length_fmap).
  rewrite length_fmap, Nat.sub_diag. cbn [lookup list_lookup].
  rewrite length_replicate, Nat.min_l by done.
  rewrite decide_True by done. rewrite drop_replicate.
  rewrite fmap_app, <- app_assoc.
  rewrite insert_app_r_alt by (by rewrite length_fmap).
  by rewrite length_fmap, Nat.sub_diag.
Qed.

Lemma lengths_lookup (done rest : list (list nat)) c :
  (length <$> done ++ c :: rest) !! length done = Some (length c).
Proof.
  rewrite fmap_app, lookup_app_r by (by rewrite length_fmap).
  by rewrite length_fmap, Nat.sub_diag.
Qed.

(** The padding loop, started after the rows of [done] have been written:
    every caption fits its row and its cells, so no round fails and each
    row ends up as its caption followed by zeros. *)
Lemma pad_loop_spec (m : nat) (rest done : list (list nat)) :
  Forall (fun c => length c ≤ m) rest → ids_fit rest →
  pad_loop (length <$> done ++ rest) (length done) rest
           ((pad m <$> done) ++ replicate (length rest) (replicate m 0))
  = Return (pad m <$> done ++ rest).
Proof.
  intros Hfit. revert done.
  induction Hfit as [| c rest Hc _ IH]; intros done Hids; cbn [pad_loop].
  - by rewrite !app_nil_r.
  - apply Forall_cons in Hids as [Hcids Hids].
    rewrite lengths_lookup. cbn [mbind result_bind].
    cbn [length replicate]. rewrite setitem_fresh_row by done.
    rewrite forallb_fits by done. cbn [mbind result_bind].
    specialize (IH (done ++ [c]) Hids).
    rewrite length_app, Nat.add_1_r, <- app_assoc in IH. exact IH.
Qed.

(** The padding loop stops with the error of the tensor constructor at
    the first caption that holds an id too large for its cell. *)
Lemma pad_loop_overflow (m : nat) (rest done : list (list nat)) :
  Forall (fun c => length c ≤ m) rest → ¬ ids_fit rest →
  pad_loop (length <$> done ++ rest) (length done) rest
           ((pad m <$> done) ++ replicate (length rest) (replicate m 0))
  = Raise RuntimeError.
Proof.
  intros Hfit. revert done.
  induction Hfit as [| c rest Hc _ IH]; intros done Hids; cbn [pad_loop].
  - destruct Hids. constructor.
  - rewrite lengths_lookup. cbn [mbind result_bind].
    cbn [length replicate]. rewrite setitem_fresh_row by done.
    destruct (forallb fits_long c) eqn:Hb; [| done].
    cbn [mbind result_bind].
    assert (Hrest : ¬ ids_fit rest).
    { intros Hrest. apply Hids. constructor; [| done].
      apply Forall_forall. intros i Hi.
      by apply (proj1 (forallb_forall _ _) Hb), list_elem_of_In. }
    specialize (IH (done ++ [c]) Hrest).
    rewrite length_app, Nat.add_1_r, <- app_assoc in IH. exact IH.
Qed.

(** Without any caption the call fails, with or without images. *)
Lemma collate_no_caption_fails (data : list (Sample Img)) :
  flat_captions data = [] → ∃ e, call data = Raise e.
Proof.
  intros Hcap. unfold BatchCollateFn_call.
  destruct (tensors_or_other (flat_images data)) as [Hall | Hother].
  - rewrite gather_spec, Hcap by done. cbn [mbind result_bind].
    destruct (vstack Img _) as [stacked | e]; cbn; eauto.
  - unfold gather. rewrite gather_from_other by done. eauto.
Qed.

(** What a batch is, when the images are tensors of one row shape, there
    is at least one image and one caption, and the ids fit. *)
Lemma collate_spec (data : list (Sample Img)) rs :
  flat_images data ≠ [] →
  tensors_of_row Img tensor_shape rs (flat_images data) →
  flat_captions data ≠ [] → ids_fit (flat_captions data) →
  ∃ m, py_max (length <$> flat_captions data) = Return m
       ∧ call data
         = Return {| batch_images := flat_images data;
                     captions_padded := pad m <$> flat_captions data;
                     lengths := length <$> flat_captions data;
                     batch_all_captions := all_captions <$> data |}.
Proof.
  intros Himg Hrow Hcap Hids. unfold BatchCollateFn_call.
  rewrite gather_spec by (by eapply tensors_of_row_all).
  cbn [mbind result_bind].
  rewrite (vstack_rows rs) by done. cbn [mbind result_bind].
  destruct (py_max_spec (length <$> flat_captions data))
    as (m & Hm & _ & Hfit).
  { by intros Hnil%fmap_nil_inv. }
  exists m. split; [done |]. rewrite Hm. cbn [mbind result_bind].
  pose proof (pad_loop_spec m (flat_captions data) []) as Hpad.
  cbn in Hpad. unfold zeros. rewrite length_fmap, Hpad; [done | | done].
  by apply Forall_fmap in Hfit.
Qed.

(** C4: assembling a batch from an empty list of samples fails: nothing
    is gathered, stacking the empty image list raises (the error torch
    reports for it), the maximum of the empty length list is undefined as
    well, and no batch, hence no padded buffer, is returned. *)
Theorem collate_empty_fails :
  gather Img tensor_shape [] = Return ([], [], [], [])
  ∧ call [] = Raise RuntimeError
  ∧ py_max [] = Raise ValueError
  ∧ ∀ b, call [] ≠ Return b.
Proof. repeat split; done. Qed.

(** The ways the call fails, in the order in which the code meets them. *)
Lemma collate_other_fails (data : list (Sample Img)) :
  some_other (flat_images data) → call data = Raise AttributeError.
Proof.
  intros Hother. unfold BatchCollateFn_call, gather.
  by rewrite gather_from_other.
Qed.

Lemma collate_no_image_fails (data : list (Sample Img)) :
  flat_images data = [] → call data = Raise RuntimeError.
Proof.
  intros Himg. unfold BatchCollateFn_call.
  rewrite gather_spec by (rewrite Himg; constructor). by rewrite Himg.
Qed.

Lemma collate_mixed_fails (data : list (Sample Img)) :
  all_tensors (flat_images data) →
  (∀ rs, ¬ tensors_of_row Img tensor_shape rs (flat_images data)) →
  call data = Raise RuntimeError.
Proof.
  intros Hall Hmixed. unfold BatchCollateFn_call.
  rewrite gather_spec by done. cbn [mbind result_bind].
  by rewrite vstack_mixed.
Qed.

Lemma collate_no_caption_value_error (data : list (Sample Img)) rs :
  flat_images data ≠ [] →
  tensors_of_row Img tensor_shape rs (flat_images data) →
  flat_captions data = [] → call data = Raise ValueError.
Proof.
  intros Himg Hrow Hcap. unfold BatchCollateFn_call.
  rewrite gather_spec by (by eapply tensors_of_row_all).
  cbn [mbind result_bind].
  rewrite (vstack_rows rs) by done. by rewrite Hcap.
Qed.

Lemma collate_overflow_fails (data : list (Sample Img)) rs :
  flat_images data ≠ [] →
  tensors_of_row Img tensor_shape rs (flat_images data) →
  ¬ ids_fit (flat_captions data) → call data = Raise RuntimeError.
Proof.
  intros Himg Hrow Hids. unfold BatchCollateFn_call.
  rewrite gather_spec by (by eapply tensors_of_row_all).
  cbn [mbind result_bind].
  rewrite (vstack_rows rs) by done. cbn [mbind result_bind].
  destruct (py_max_spec (length <$> flat_captions data))
    as (m & Hm & _ & Hfit).
  { intros Hnil%fmap_nil_inv. apply Hids. rewrite Hnil. constructor. }
  rewrite Hm. cbn [mbind result_bind].
  pose proof (pad_loop_overflow m (flat_captions data) []) as Hpad.
  cbn in Hpad. unfold zeros. rewrite length_fmap, Hpad; [done | | done].
  by apply Forall_fmap in Hfit.
Qed.


(** When every sample carries one image and one caption, as the samples
    of first-caption-only mode do, row [k] of the batch and image [k] of
    the batch both come from sample [k]. *)
Lemma collate_one_per_sample (data : list (Sample Img)) rs :
  data ≠ [] →
  Forall (fun s => length (images s) = 1 ∧ length (captions s) = 1) data →
  tensors_of_row Img tensor_shape rs (flat_images data) →
  ids_fit (flat_captions data) →
  ∃ b max_len,
    call data = Return b
    ∧ length (batch_images b) = length data
    ∧ length (captions_padded b) = length data
    ∧ ∀ k s, data !! k = Some s →
        ∃ image c, images s = [image] ∧ captions s = [c]
                   ∧ batch_images b !! k = Some image
                   ∧ captions_padded b !! k = Some (pad max_len c)
                   ∧ lengths b !! k = Some (length c).
Proof.
  intros Hne Hone Hrow Hids.
  assert (Hflat : ∀ k s, data !! k = Some s →
            ∃ image c, images s = [image] ∧ captions s = [c]
                       ∧ flat_images data !! k = Some image
                       ∧ flat_captions data !! k = Some c).
  { clear Hne Hrow Hids.
    induction Hone as [| s0 data [Hi Hc] _ IH]; intros k s Hk; [done |].
    destruct (images s0) as [| image0 [| ? ?]] eqn:Hi0; try discriminate Hi.
    destruct (captions s0) as [| c0 [| ? ?]] eqn:Hc0; try discriminate Hc.
    csimpl. rewrite Hi0, Hc0. destruct k as [| k]; simplify_eq/=.
    - by exists image0, c0.
    - by apply IH. }
  assert (Hlen : length (flat_images data) = length data
                 ∧ length (flat_captions data) = length data).
  { clear Hne Hflat Hrow Hids.
    induction Hone as [| s0 data [Hi Hc] _ [IH1 IH2]]; [done |].
    csimpl. rewrite !length_app. lia. }
  destruct Hlen as [Hli Hlc].
  destruct (collate_spec data rs) as (m & Hm & Hcall); [| done | | done |].
  { intros Hnil. rewrite Hnil in Hli. by destruct data. }
  { intros Hnil. rewrite Hnil in Hlc. by destruct data. }
  eexists _, m. split; [exact Hcall |]. cbn.
  split; [done |]. split; [by rewrite length_fmap |].
  intros k s Hk. destruct (Hflat k s Hk) as (image & c & Hi & Hc & Hfi & Hfc).
  exists image, c. rewrite !list_lookup_fmap, Hfc. by repeat split.
Qed.

End CollateFacts.

(** ** Batches of fetched samples *)

Section FetchedBatches.

Variables UNK_WORD START_SEQ END_SEQ : string.
Variable Img : Type.
Variable image_open : string → result Img.
Variable tensor_shape : Img → option (list nat).

Local Abbreviation fetch := (getitem UNK_WORD START_SEQ END_SEQ image_open).

(** A non-empty batch of samples fetched in full mode has five images per
    sample and no encoded caption, and the call fails: on the maximum of
    an empty length list when the images are tensors of one row shape,
    earlier otherwise. *)
Lemma full_mode_batch_fails (data : list (Sample Img)) :
  data ≠ [] →
  Forall (fun s => ∃ (self : FlickrConvRNN Img) idx self',
                     first_caption_only self = false
                     ∧ fetch self idx = (Return s, self')) data →
  length (concat (images <$> data)) = 5 * length data
  ∧ concat (captions <$> data) = []
  ∧ (∃ e, BatchCollateFn_call Img tensor_shape data = Raise e)
  ∧ (∀ rs, tensors_of_row Img tensor_shape rs (concat (images <$> data)) →
           BatchCollateFn_call Img tensor_shape data = Raise ValueError).
Proof.
  intros Hne Hfull.
  assert (Hflat : length (concat (images <$> data)) = 5 * length data
                  ∧ concat (captions <$> data) = []).
  { clear Hne.
    induction Hfull as [| s data (self & idx & self' & Hmode & Hs) _ [IH1 IH2]];
      [done |].
    apply getitem_full_mode in Hs as (Hc & Hi & _); [| done].
    csimpl. rewrite length_app, Hi, IH1, Hc, IH2. split; [lia | done]. }
  destruct Hflat as [Hi Hc]. split; [done |]. split; [done |].
  split; [by apply collate_no_caption_fails |].
  intros rs Hrow. apply (collate_no_caption_value_error _ _ _ rs); [| done..].
  intros Hnil. rewrite Hnil in Hi. destruct data; [done | simpl in Hi; lia].
Qed.

(** C3, amended: for every non-empty batch of samples fetched in
    first-caption-only mode for images that have at least one caption,
    the images being tensors of one row shape and the ids fitting a
    64-bit cell, the image rows and the caption rows of the batch are
    equal in number, one per sample, and index-aligned: image [k] and
    caption row [k] are the image and the padded encoded caption of
    sample [k]. *)
Theorem collate_first_caption_aligned (data : list (Sample Img))
    (rs : list nat) :
  data ≠ [] →
  Forall (fun s => ∃ (self : FlickrConvRNN Img) idx self' image_id c caps,
                     first_caption_only self = true
                     ∧ image_ids self !! idx = Some image_id
                     ∧ labels self !! image_id = Some (c :: caps)
                     ∧ fetch self idx = (Return s, self')) data →
  tensors_of_row Img tensor_shape rs (concat (images <$> data)) →
  ids_fit (concat (captions <$> data)) →
  ∃ b max_len,
    BatchCollateFn_call Img tensor_shape data = Return b
    ∧ length (batch_images b) = length (captions_padded b)
    ∧ length (captions_padded b) = length data
    ∧ ∀ k s, data !! k = Some s →
        ∃ image c,
          images s = [image] ∧ captions s = [c]
          ∧ batch_images b !! k = Some image
          ∧ captions_padded b !! k
            = Some (c ++ replicate (max_len - length c) 0)
          ∧ lengths b !! k = Some (length c).
Proof.
  intros Hne Hfirst Hrow Hids.
  assert (Hone : Forall (fun s => length (images s) = 1
                                  ∧ length (captions s) = 1) data).
  { eapply Forall_impl; [exact Hfirst |].
    intros s (self & idx & self' & image_id & c & caps & Hm & Hid & Hl & Hs).
    destruct (getitem_first_only _ _ _ _ _ _ _ _ _ _ _ _ Hm Hid Hl Hs)
      as (Hi & Hc & _).
    done. }
  destruct (collate_one_per_sample Img tensor_shape data rs Hne Hone Hrow Hids)
    as (b & m & Hcall & Hli & Hlc & Hrows).
  exists b, m. split; [done |]. split; [congruence |]. split; [done |].
  exact Hrows.
Qed.

End FetchedBatches.

(** ** The definitions at work *)

Module Sample_facts.
Import Sample_data.

Example vocab_ids :
  word2idx the_vocab !! "a" = Some 4
  ∧ word2idx the_vocab !! "dog" = Some 5
  ∧ word2idx the_vocab !! "cat" = None
  ∧ Vocabulary_len the_vocab = 6.
Proof. repeat split; vm_compute; reflexivity. Qed.

Example dataset_labels :
  labels (dataset false) !! "1.jpg" = Some ["a dog runs"; "a cat sits"]
  ∧ labels (dataset false) !! "2.jpg" = None
  ∧ labels (dataset false) !! "3.jpg" = None.
Proof. repeat split; vm_compute; reflexivity. Qed.

Example fetch_first_only :
  (fetch (dataset true) 0).1 = Return first_sample_1.
Proof. vm_compute. reflexivity. Qed.

Example fetch_full :
  fetch (dataset false) 0 = (Return full_sample, dataset false).
Proof. vm_compute. reflexivity. Qed.

Example fetch_out_of_range : (fetch (dataset true) 3).1 = Raise IndexError.
Proof. vm_compute. reflexivity. Qed.

Example fetch_tensors :
  (Tensor_data.fetch (Tensor_data.dataset true) 0).1
  = Return Tensor_data.sample_1
  ∧ (Tensor_data.fetch (Tensor_data.dataset true) 1).1
    = Return Tensor_data.sample_2
  ∧ (Tensor_data.fetch (Tensor_data.dataset true) 2).1
    = Return Tensor_data.sample_4
  ∧ (Tensor_data.fetch (Tensor_data.dataset false) 0).1
    = Return Tensor_data.full_sample_1.
Proof. repeat split; vm_compute; reflexivity. Qed.

Example collate_full_sample :
  Tensor_data.collate [Tensor_data.full_sample_1] = Raise ValueError.
Proof. vm_compute. reflexivity. Qed.

Example collate_first_samples :
  Tensor_data.collate [Tensor_data.sample_1; Tensor_data.sample_4]
  = Return {| batch_images := [Tensor_data.TensorImage [3; 2; 2] "img/1.jpg";
                               Tensor_data.TensorImage [3; 2; 2] "img/4.jpg"];
              captions_padded := [[2; 4; 5; 1; 3]; [2; 4; 5; 3; 0]];
              lengths := [5; 4];
              batch_all_captions :=
                [all_captions first_sample_1; all_captions first_sample_4] |}.
Proof. vm_compute. reflexivity. Qed.

(** Without a transform the sample holds the PIL image, which has no
    [unsqueeze]: the batch cannot be assembled. *)
Example collate_plain_sample :
  ∃ s, (Tensor_data.fetch (Tensor_data.plain_dataset true) 0).1 = Return s
       ∧ images s = [Tensor_data.PilImage "img/1.jpg"]
       ∧ Tensor_data.collate [s] = Raise AttributeError.
Proof. eexists. repeat split; vm_compute; reflexivity. Qed.

(** Tensors of different sizes cannot be stacked, and an id that does not
    fit a 64-bit cell cannot be stored. *)
Example collate_mixed_sizes :
  Tensor_data.collate
    [mkSample [Tensor_data.TensorImage [3; 2; 2] "x.jpg"] [[2; 3]] [];
     mkSample [Tensor_data.TensorImage [3; 4; 4] "y.jpg"] [[2; 3]] []]
  = Raise RuntimeError.
Proof. vm_compute. reflexivity. Qed.

Example collate_large_id (n : nat) :
  (2 ^ 63 ≤ Z.of_nat n)%Z →
  Tensor_data.collate
    [mkSample [Tensor_data.TensorImage [3; 2; 2] "x.jpg"] [[2; n; 3]] []]
  = Raise RuntimeError.
Proof.
  intros Hn.
  apply (collate_overflow_fails _ _ _ [3; 2; 2]);
    [discriminate | repeat constructor |].
  intros Hfit. cbn in Hfit.
  apply Forall_cons in Hfit as [Hfit _].
  apply Forall_cons in Hfit as [_ Hfit].
  apply Forall_cons in Hfit as [Hfit _].
  unfold fits_long in Hfit. apply Z.ltb_lt in Hfit. lia.
Qed.

End Sample_facts.

(** ** The theorems at concrete inputs *)

Section Instances.
Import Sample_data.

(** C1 at a concrete input: the image "1.jpg" has two raw captions, and in
    full mode its sample has no encoded caption. *)
Lemma getitem_full_mode_encodes_nothing_witness :
  first_caption_only (dataset false) = false
  ∧ image_ids (dataset false) !! 0 = Some "1.jpg"
  ∧ labels (dataset false) !! "1.jpg" = Some ["a dog runs"; "a cat sits"]
  ∧ open_path (path_join (image_dir (dataset false)) "1.jpg")
    = Return "img/1.jpg"
  ∧ ∃ s, (fetch (dataset false) 0).1 = Return s
         ∧ captions s = []
         ∧ all_captions s
           = (fun caption => [START_SEQ] ++ tokenize caption ++ [END_SEQ])
               <$> ["a dog runs"; "a cat sits"].
Proof.
  assert (h1 : first_caption_only (dataset false) = false) by reflexivity.
  assert (h2 : image_ids (dataset false) !! 0 = Some "1.jpg") by reflexivity.
  assert (h3 : labels (dataset false) !! "1.jpg"
               = Some ["a dog runs"; "a cat sits"])
    by (vm_compute; reflexivity).
  assert (h4 : open_path (path_join (image_dir (dataset false)) "1.jpg")
               = Return "img/1.jpg") by reflexivity.
  exact (conj h1 (conj h2 (conj h3 (conj h4
    (getitem_full_mode_encodes_nothing UNK_WORD START_SEQ END_SEQ string
       open_path (dataset false) 0 "1.jpg" _ "img/1.jpg" h1 h2 h3 h4))))).
Defined.

(** C3, as stated, fails: the transform of the dataset makes tensors of
    one size of the images; in first-caption-only mode the sample of
    "2.jpg", an image without caption, brings an image and no caption, so
    the batch of the samples of "1.jpg" and "2.jpg" has two image rows and
    one caption row. *)
Lemma collate_rows_not_aligned :
  first_caption_only (Tensor_data.dataset true) = true
  ∧ (Tensor_data.fetch (Tensor_data.dataset true) 0).1
    = Return Tensor_data.sample_1
  ∧ (Tensor_data.fetch (Tensor_data.dataset true) 1).1
    = Return Tensor_data.sample_2
  ∧ ∃ b, Tensor_data.collate [Tensor_data.sample_1; Tensor_data.sample_2]
         = Return b
         ∧ length (batch_images b) = 2
         ∧ length (captions_padded b) = 1
         ∧ length (batch_images b) ≠ length (captions_padded b).
Proof.
  split; [reflexivity |].
  split; [vm_compute; reflexivity |].
  split; [vm_compute; reflexivity |].
  eexists. split; [vm_compute; reflexivity |]. cbn. by repeat split.
Qed.

(** C3, amended, at a concrete input: the samples of "1.jpg" and "4.jpg",
    whose images the transform has made tensors of one size. *)
Lemma collate_first_caption_aligned_witness :
  let data := [Tensor_data.sample_1; Tensor_data.sample_4] in
  data ≠ []
  ∧ Tensor_data.fetch (Tensor_data.dataset true) 0
    = (Return Tensor_data.sample_1, Tensor_data.dataset true)
  ∧ Tensor_data.fetch (Tensor_data.dataset true) 2
    = (Return Tensor_data.sample_4, Tensor_data.dataset true)
  ∧ tensors_of_row Tensor_data.picture Tensor_data.shape_of [3; 2; 2]
                   (concat (images <$> data))
  ∧ ids_fit (concat (captions <$> data))
  ∧ ∃ b max_len,
      Tensor_data.collate data = Return b
      ∧ length (batch_images b) = length (captions_padded b)
      ∧ length (captions_padded b) = length data
      ∧ ∀ k s, data !! k = Some s →
          ∃ image c,
            images s = [image] ∧ captions s = [c]
            ∧ batch_images b !! k = Some image
            ∧ captions_padded b !! k
              = Some (c ++ replicate (max_len - length c) 0)
            ∧ lengths b !! k = Some (length c).
Proof.
  intros data.
  assert (h1 : data ≠ []) by discriminate.
  assert (f1 : Tensor_data.fetch (Tensor_data.dataset true) 0
               = (Return Tensor_data.sample_1, Tensor_data.dataset true))
    by (vm_compute; reflexivity).
  assert (f4 : Tensor_data.fetch (Tensor_data.dataset true) 2
               = (Return Tensor_data.sample_4, Tensor_data.dataset true))
    by (vm_compute; reflexivity).
  assert (h2 : Forall (fun s => ∃ (self : FlickrConvRNN Tensor_data.picture)
                                  idx self' image_id c caps,
                         first_caption_only self = true
                         ∧ image_ids self !! idx = Some image_id
                         ∧ labels self !! image_id = Some (c :: caps)
                         ∧ Tensor_data.fetch self idx = (Return s, self'))
                      data).
  { constructor; [| constructor; [| constructor]].
    - exists (Tensor_data.dataset true), 0, (Tensor_data.dataset true),
        "1.jpg", "a dog runs", ["a cat sits"].
      split; [reflexivity |]. split; [reflexivity |].
      split; [vm_compute; reflexivity | exact f1].
    - exists (Tensor_data.dataset true), 2, (Tensor_data.dataset true),
        "4.jpg", "a dog", [].
      split; [reflexivity |]. split; [reflexivity |].
      split; [vm_compute; reflexivity | exact f4]. }
  assert (h3 : tensors_of_row Tensor_data.picture Tensor_data.shape_of
                              [3; 2; 2] (concat (images <$> data)))
    by (repeat constructor).
  assert (h4 : ids_fit (concat (captions <$> data)))
    by (repeat constructor).
  exact (conj h1 (conj f1 (conj f4 (conj h3 (conj h4
    (collate_first_caption_aligned UNK_WORD START_SEQ END_SEQ
       Tensor_data.picture Tensor_data.open_picture Tensor_data.shape_of
       data [3; 2; 2] h1 h2 h3 h4)))))).
Defined.

(** C5, as stated, fails: "2.jpg" is in the split and has no caption, and
    fetching its sample returns a sample instead of raising. *)
Lemma caption_less_sample_returned :
  image_ids (dataset true) !! 1 = Some "2.jpg"
  ∧ labels (dataset true) !! "2.jpg" = None
  ∧ (fetch (dataset true) 1).1 = Return first_sample_2
  ∧ ∀ e, (fetch (dataset true) 1).1 ≠ Raise e.
Proof.
  split; [reflexivity |]. split; [vm_compute; reflexivity |].
  assert (Hr : (fetch (dataset true) 1).1
                   = Return first_sample_2)
    by (vm_compute; reflexivity).
  split; [exact Hr |]. intros e. rewrite Hr. discriminate.
Qed.

(** C5, amended, at the same input. *)
Lemma getitem_no_captions_witness :
  split_ids !! 1 = Some "2.jpg"
  ∧ Forall (fun r : string * string => r.1 ≠ "2.jpg") rows
  ∧ open_path (path_join "img" "2.jpg") = Return "img/2.jpg"
  ∧ ∃ s, fetch (dataset true) 1
           = (Return s,
              set_labels (dataset true)
                         (<["2.jpg" := []]> (labels (dataset true))))
         ∧ images s ≠ []
         ∧ captions s = []
         ∧ all_captions s = [].
Proof.
  assert (h1 : split_ids !! 1 = Some "2.jpg") by reflexivity.
  assert (h2 : Forall (fun r : string * string => r.1 ≠ "2.jpg") rows)
    by (repeat constructor; discriminate).
  assert (h3 : open_path (path_join "img" "2.jpg") = Return "img/2.jpg")
    by reflexivity.
  exact (conj h1 (conj h2 (conj h3
    (getitem_no_captions UNK_WORD START_SEQ END_SEQ string open_path
       "img" split_ids rows None the_vocab true 1 "2.jpg" "img/2.jpg"
       h1 h2 h3)))).
Defined.

(** C6 at a concrete input: "dog" and "a" are in the vocabulary, "cat" is
    not. *)
Lemma encode_decode_roundtrip_witness :
  let v := foldl add_word (Vocabulary_init PAD UNK_WORD START_SEQ END_SEQ)
                 ["a"; "dog"] in
  Forall (fun t => is_Some (word2idx v !! t)) ["dog"; "a"; "<start>"]
  ∧ word2idx v !! "cat" = None
  ∧ (∃ ids, encode_seq UNK_WORD v ["dog"; "a"; "<start>"] = Return ids
            ∧ decode_seq v ids = Return ["dog"; "a"; "<start>"])
  ∧ (∃ unk, word2idx v !! UNK_WORD = Some unk
            ∧ Vocabulary_call UNK_WORD v "cat" = Return unk
            ∧ encode_seq UNK_WORD v ["cat"] = Return [unk]
            ∧ decode_seq v [unk] = Return [UNK_WORD]
            ∧ UNK_WORD ≠ "cat").
Proof.
  intros v.
  assert (h1 : Forall (fun t => is_Some (word2idx v !! t))
                      ["dog"; "a"; "<start>"]).
  { repeat constructor; vm_compute; eauto. }
  assert (h2 : word2idx v !! "cat" = None) by (vm_compute; reflexivity).
  exact (conj h1 (conj h2 (conj
    (proj1 (encode_decode_roundtrip PAD UNK_WORD START_SEQ END_SEQ
              ["a"; "dog"] ["dog"; "a"; "<start>"] "cat") h1)
    (proj2 (encode_decode_roundtrip PAD UNK_WORD START_SEQ END_SEQ
              ["a"; "dog"] ["dog"; "a"; "<start>"] "cat") h2)))).
Defined.



(** C8 at a concrete input: in the sample corpus "dog" occurs 5 times and
    "cat" 4 times; "a" and "dog" are the tokens that are included. *)
Lemma get_vocabulary_threshold_witness :
  frequency corpus "dog" = 5
  ∧ frequency corpus "cat" = 4
  ∧ reserved_word2idx PAD UNK_WORD START_SEQ END_SEQ !! "cat" = None
  ∧ is_Some (word2idx the_vocab !! "dog")
  ∧ word2idx the_vocab !! "cat" = None
  ∧ word2idx the_vocab !! "a" = Some (4 + 0)
  ∧ word2idx the_vocab !! "dog" = Some (4 + 1).
Proof.
  assert (h1 : frequency corpus "dog" = 5) by reflexivity.
  assert (h2 : frequency corpus "cat" = 4) by reflexivity.
  assert (h3 : reserved_word2idx PAD UNK_WORD START_SEQ END_SEQ !! "cat" = None)
    by (vm_compute; reflexivity).
  pose proof (get_vocabulary_threshold PAD UNK_WORD START_SEQ END_SEQ corpus)
    as (Hin & Hout & Hids).
  exact (conj h1 (conj h2 (conj h3 (conj (Hin "dog" h1) (conj (Hout "cat" h2 h3)
    (conj (Hids 0 "a" ltac:(vm_compute; reflexivity))
          (Hids 1 "dog" ltac:(vm_compute; reflexivity)))))))).
Defined.

(** C9 at a concrete input: the sample reserved symbols are distinct. *)
Lemma vocabulary_bijection_reserved_witness :
  NoDup [PAD; UNK_WORD; START_SEQ; END_SEQ]
  ∧ let v := foldl add_word (Vocabulary_init PAD UNK_WORD START_SEQ END_SEQ)
                   ["dog"; "<pad>"; "cat"; "dog"] in
    (∀ w i, word2idx v !! w = Some i ↔ idx2word v !! i = Some w)
    ∧ (∀ w1 w2 i,
         word2idx v !! w1 = Some i → word2idx v !! w2 = Some i → w1 = w2)
    ∧ (word2idx v !! PAD = Some 0 ∧ word2idx v !! UNK_WORD = Some 1
       ∧ word2idx v !! START_SEQ = Some 2 ∧ word2idx v !! END_SEQ = Some 3)
    ∧ (idx2word v !! 0 = Some PAD ∧ idx2word v !! 1 = Some UNK_WORD
       ∧ idx2word v !! 2 = Some START_SEQ ∧ idx2word v !! 3 = Some END_SEQ).
Proof.
  assert (h1 : NoDup [PAD; UNK_WORD; START_SEQ; END_SEQ]).
  { repeat (apply NoDup_cons; split;
            [rewrite ?elem_of_cons, ?elem_of_nil; intuition discriminate |]).
    apply NoDup_nil_2. }
  exact (conj h1
    (vocabulary_bijection_reserved PAD UNK_WORD START_SEQ END_SEQ
       ["dog"; "<pad>"; "cat"; "dog"] h1)).
Defined.

End Instances.

(** ** Binary64 order and subtraction *)

Section FloatFacts.

Local Open Scope Z_scope.

Lemma digits2_pos_bounds (m : positive) :
  2 ^ (Zpos (digits2_pos m) - 1) ≤ Zpos m < 2 ^ Zpos (digits2_pos m).
Proof.
  induction m as [p IH | p IH |]; cbn [digits2_pos].
  - rewrite Pos2Z.inj_succ.
    replace (Z.succ (Zpos (digits2_pos p)) - 1)
      with (Z.succ (Zpos (digits2_pos p) - 1)) by lia.
    rewrite !Z.pow_succ_r by lia. lia.
  - rewrite Pos2Z.inj_succ.
    replace (Z.succ (Zpos (digits2_pos p)) - 1)
      with (Z.succ (Zpos (digits2_pos p) - 1)) by lia.
    rewrite !Z.pow_succ_r by lia. lia.
  - cbn. lia.
Qed.

Lemma iter_xO (m d : positive) :
  Zpos (Pos.iter xO m d) = Zpos m * 2 ^ Zpos d.
Proof.
  induction d as [| d IH] using Pos.peano_ind.
  - cbn. lia.
  - rewrite Pos.iter_succ, Pos2Z.inj_succ, Z.pow_succ_r by lia.
    rewrite Pos2Z.inj_xO, IH. lia.
Qed.

(** Aligning a mantissa to a smaller exponent multiplies it by a power
    of two. *)
Lemma shl_align_value (mx : positive) (ex ez : Z) :
  ez ≤ ex → Zpos (fst (shl_align mx ex ez)) = Zpos mx * 2 ^ (ex - ez).
Proof.
  intros Hle. unfold shl_align.
  destruct (ez - ex) as [| d | d] eqn:Hd; cbn [fst].
  - replace (ex - ez) with 0 by lia. lia.
  - lia.
  - replace (ex - ez) with (Zpos d) by lia. apply iter_xO.
Qed.

Lemma bounded_facts m e :
  bounded Float.prec Float.emax m e = true →
  Zpos (digits2_pos m) ≤ 53 ∧ -1074 ≤ e
  ∧ (-1074 < e → Zpos (digits2_pos m) = 53).
Proof.
  unfold bounded, canonical_mantissa, fexp, emin, Float.prec, Float.emax.
  intros H. apply andb_prop in H as [H _]. apply Z.eqb_eq in H. lia.
Qed.

(** Of two binary64 numbers the one with the smaller exponent is the
    smaller one. *)
Lemma aligned_lt m1 e1 m2 e2 :
  bounded Float.prec Float.emax m1 e1 = true →
  bounded Float.prec Float.emax m2 e2 = true →
  e1 < e2 → Zpos m1 < Zpos m2 * 2 ^ (e2 - e1).
Proof.
  intros H1 H2 Hlt.
  apply bounded_facts in H1 as (Hd1 & He1 & _).
  apply bounded_facts in H2 as (_ & _ & Hd2).
  specialize (Hd2 ltac:(lia)).
  pose proof (digits2_pos_bounds m1) as [_ Hm1].
  pose proof (digits2_pos_bounds m2) as [Hm2 _].
  rewrite Hd2 in Hm2.
  assert (Hb : Zpos m1 < 2 ^ 53).
  { eapply Z.lt_le_trans; [exact Hm1 |]. apply Z.pow_le_mono_r; lia. }
  assert (2 ^ 1 ≤ 2 ^ (e2 - e1)) by (apply Z.pow_le_mono_r; lia).
  change (2 ^ 53) with (2 ^ 52 * 2 ^ 1) in Hb.
  change (53 - 1) with 52 in Hm2.
  nia.
Qed.

Lemma binary_round_sign s m e :
  Float.sign_or_nan s (binary_round Float.prec Float.emax s m e).
Proof.
  unfold binary_round, binary_round_aux.
  destruct (shl_align _ _ _) as [mz ez].
  destruct (shr_fexp _ _ _ _ _) as [mrs' e'].
  destruct (shr_fexp _ _ _ _ _) as [mrs'' e''].
  destruct (shr_m mrs''); cbn; [done | | done].
  destruct (Z.leb _ _); cbn; reflexivity.
Qed.

Lemma binary_normalize_pos m e :
  Float.is_pos (binary_normalize Float.prec Float.emax m e false) = true →
  0 < m.
Proof.
  destruct m as [| p | p]; cbn [binary_normalize].
  - discriminate.
  - lia.
  - pose proof (binary_round_sign true p e) as Hs.
    destruct (binary_round Float.prec Float.emax true p e)
      as [| [] | | [] ? ?]; cbn in *; congruence.
Qed.

(** Above a threshold that is not negative there are only positive
    numbers. *)
Lemma ltb_pos thr r :
  Float.ltb thr Float.zero = false → Float.ltb thr r = true →
  Float.is_pos r = true.
Proof.
  unfold Float.ltb, SFltb.
  destruct thr as [[] | [] | | [] ? ?], r as [[] | [] | | [] ? ?];
    cbn; congruence.
Qed.

(** A positive difference, as computed, means a greater minuend. *)
Lemma sub_pos_lt x y :
  Float.valid x = true → Float.valid y = true →
  Float.is_pos (Float.sub x y) = true → Float.ltb y x = true.
Proof.
  unfold Float.valid, Float.sub, Float.ltb. intros Hx Hy.
  destruct x as [sx | sx | | sx mx ex], y as [sy | sy | | sy my ey];
    try (repeat match goal with s : bool |- _ => destruct s end;
         cbn; congruence).
  cbn [SFsub]. intros Hpos. apply binary_normalize_pos in Hpos.
  cbn [valid_binary] in Hx, Hy.
  pose proof (shl_align_value mx ex (Z.min ex ey) ltac:(lia)) as HX.
  pose proof (shl_align_value my ey (Z.min ex ey) ltac:(lia)) as HY.
  rewrite HX, HY in Hpos. clear HX HY.
  assert (Hpx : 0 < Zpos mx * 2 ^ (ex - Z.min ex ey)).
  { apply Z.mul_pos_pos; [lia | apply Z.pow_pos_nonneg; lia]. }
  assert (Hpy : 0 < Zpos my * 2 ^ (ey - Z.min ex ey)).
  { apply Z.mul_pos_pos; [lia | apply Z.pow_pos_nonneg; lia]. }
  unfold SFltb, SFcompare.
  destruct sx, sy; cbn [cond_Zopp] in Hpos; try lia; try reflexivity.
  - destruct (Z.compare_spec ey ex) as [Heq | Hlt | Hgt].
    + subst ey. rewrite Z.min_id, Z.sub_diag, Z.pow_0_r in Hpos.
      rewrite Pos.compare_cont_spec. cbn.
      assert ((my ?= mx)%positive = Gt) as ->; [| done].
      apply Pos.compare_gt_iff. lia.
    + exfalso. pose proof (aligned_lt my ey mx ex Hy Hx Hlt).
      rewrite Z.min_r, Z.sub_diag, Z.pow_0_r in Hpos by lia. lia.
    + reflexivity.
  - destruct (Z.compare_spec ey ex) as [Heq | Hlt | Hgt].
    + subst ey. rewrite Z.min_id, Z.sub_diag, Z.pow_0_r in Hpos.
      rewrite Pos.compare_cont_spec. cbn.
      assert ((my ?= mx)%positive = Lt) as ->; [| done].
      apply Pos.compare_lt_iff. lia.
    + reflexivity.
    + exfalso. pose proof (aligned_lt mx ex my ey Hx Hy Hgt).
      rewrite Z.min_l, Z.sub_diag, Z.pow_0_r in Hpos by lia. lia.
Qed.

Lemma leb_refl x : x ≠ S754_nan → Float.leb x x = true.
Proof.
  unfold Float.leb, SFleb, SFcompare.
  destruct x as [[] | [] | | [] m e]; try done;
    intros _; rewrite Z.compare_refl, Pos.compare_cont_refl; done.
Qed.

Lemma ltb_leb x y : Float.ltb x y = true → Float.leb x y = true.
Proof.
  unfold Float.ltb, Float.leb, SFltb, SFleb.
  by destruct (SFcompare x y) as [[] |].
Qed.

Lemma ltb_not_nan x y : Float.ltb x y = true → y ≠ S754_nan.
Proof. intros H ->. by destruct x as [[] | [] | | [] ? ?]. Qed.

Ltac compare_cases :=
  repeat match goal with
         | H : context [Z.compare ?a ?b] |- _ =>
             destruct (Z.compare_spec a b); try subst; cbn in H
         | H : context [Pos.compare_cont Eq ?a ?b] |- _ =>
             rewrite Pos.compare_cont_spec in H; cbn in H;
             destruct (Pos.compare_spec a b); try subst; cbn in H
         | |- context [Z.compare ?a ?b] =>
             destruct (Z.compare_spec a b); try subst; cbn
         | |- context [Pos.compare_cont Eq ?a ?b] =>
             rewrite Pos.compare_cont_spec; cbn;
             destruct (Pos.compare_spec a b); try subst; cbn
         end.

Lemma leb_trans x y z :
  Float.leb x y = true → Float.leb y z = true → Float.leb x z = true.
Proof.
  unfold Float.leb, SFleb, SFcompare.
  destruct x as [[] | [] | | [] mx ex], y as [[] | [] | | [] my ey],
           z as [[] | [] | | [] mz ez]; cbn; try done;
    intros H1 H2; compare_cases; try done; lia.
Qed.

End FloatFacts.

(** ** EarlyStopping *)

Section EarlyStoppingFacts.

Lemma init_max_mode save_final patience thr :
  max_mode_inv thr (EarlyStopping_init save_final patience "max" thr).
Proof. by repeat split. Qed.

(** What a call does to [best_score] in mode ["max"]. *)
Lemma call_best_score thr self score :
  max_mode_inv thr self →
  best_score (EarlyStopping_call self score).1.2 =
    if Float.ltb thr (Float.sub score (best_score self)) then score
    else best_score self.
Proof.
  intros (Hmode & Hthr & _). unfold EarlyStopping_call, better_score.
  rewrite Hmode, Hthr. cbn [decide truthy].
  rewrite decide_True by done. cbn [truthy].
  destruct (Float.ltb thr _); [done |].
  by destruct (_ <=? _)%Z.
Qed.

Lemma call_other_fields self score :
  mode (EarlyStopping_call self score).1.2 = mode self
  ∧ threshold (EarlyStopping_call self score).1.2 = threshold self.
Proof.
  unfold EarlyStopping_call.
  destruct (truthy _); [done |]. by destruct (_ <=? _)%Z.
Qed.

(** One call, threshold not negative: the invariant is kept and the best
    score does not go down. *)
Lemma call_step thr self score :
  Float.ltb thr Float.zero = false →
  max_mode_inv thr self → Float.valid score = true →
  max_mode_inv thr (EarlyStopping_call self score).1.2
  ∧ Float.leb (best_score self)
              (best_score (EarlyStopping_call self score).1.2) = true.
Proof.
  intros Hthr Hinv Hscore.
  pose proof (call_best_score thr self score Hinv) as Hbest.
  destruct (call_other_fields self score) as [Hm Ht].
  destruct Hinv as (Hmode & Hthreshold & Hvalid & Hnan).
  unfold max_mode_inv. rewrite Hm, Ht, Hbest.
  destruct (Float.ltb thr (Float.sub score (best_score self))) eqn:Hbetter.
  - assert (Hlt : Float.ltb (best_score self) score = true)
      by eauto using sub_pos_lt, ltb_pos.
    repeat split; eauto using ltb_not_nan, ltb_leb.
  - repeat split; eauto using leb_refl.
Qed.

Lemma run_steps thr scores self :
  Float.ltb thr Float.zero = false →
  max_mode_inv thr self →
  Forall (fun s => Float.valid s = true) scores →
  max_mode_inv thr (EarlyStopping_run self scores)
  ∧ Float.leb (best_score self)
              (best_score (EarlyStopping_run self scores)) = true.
Proof.
  intros Hthr Hinv Hvalid. revert self Hinv.
  induction Hvalid as [| score scores Hs _ IH]; intros self Hinv; cbn.
  - split; [done |]. apply leb_refl. apply Hinv.
  - destruct (call_step thr self score Hthr Hinv Hs) as [Hinv' Hle].
    destruct (IH _ Hinv') as [Hinv'' Hle'].
    split; [done |]. by eapply leb_trans.
Qed.

(** C10, as stated, fails: with the threshold -1.0 the score -0.5 counts
    as better than the initial best score 0.0 and replaces it, so the
    best score goes down. *)
Lemma best_score_decreases :
  let self := EarlyStopping_init false 5 "max" Float.minus_one in
  let self' := (EarlyStopping_call self Float.minus_half).1.2 in
  mode self = "max"
  ∧ best_score self = Float.zero
  ∧ best_score self' = Float.minus_half
  ∧ Float.ltb (best_score self') (best_score self) = true
  ∧ Float.leb (best_score self) (best_score self') = false.
Proof. repeat split; vm_compute; reflexivity. Qed.

(** C10, amended: for an [EarlyStopping] object with mode ["max"] whose
    threshold is not negative, [best_score] is non-decreasing across any
    sequence of calls with float scores: after the calls for [before] and
    then those for [after] it is at least what it was after [before]; and
    a call sets it to the new score exactly when
    [score - best_score > threshold], leaving it unchanged otherwise. *)
Theorem best_score_non_decreasing (save_final : bool) (patience : Z)
    (thr : spec_float) (before after : list spec_float) :
  Float.ltb thr Float.zero = false →
  Forall (fun s => Float.valid s = true) (before ++ after) →
  let init := EarlyStopping_init save_final patience "max" thr in
  let self := EarlyStopping_run init before in
  Float.leb (best_score self)
            (best_score (EarlyStopping_run init (before ++ after))) = true
  ∧ ∀ score,
      best_score (EarlyStopping_call self score).1.2 =
        if Float.ltb thr (Float.sub score (best_score self)) then score
        else best_score self.
Proof.
  intros Hthr Hvalid init self.
  apply Forall_app in Hvalid as [Hb Ha].
  destruct (run_steps thr before init Hthr
              (init_max_mode save_final patience thr) Hb) as [Hinv _].
  split.
  - replace (EarlyStopping_run init (before ++ after))
      with (EarlyStopping_run self after)
      by (unfold self, EarlyStopping_run; by rewrite foldl_app).
    by apply (run_steps thr after self Hthr Hinv Ha).
  - intros score. by apply call_best_score.
Qed.

(** C10, amended, at a concrete input: the default threshold 0.0001 and
    the scores 0.5, 0.25, then 0.75 and a score that is not a number. *)
Lemma best_score_non_decreasing_witness :
  Float.ltb Float.default_threshold Float.zero = false
  ∧ Forall (fun s => Float.valid s = true)
           ([Float.half; Float.quarter] ++ [Float.three_quarters; S754_nan])
  ∧ let init := EarlyStopping_init false 5 "max" Float.default_threshold in
    let self := EarlyStopping_run init [Float.half; Float.quarter] in
    Float.leb (best_score self)
              (best_score
                 (EarlyStopping_run init
                    ([Float.half; Float.quarter]
                     ++ [Float.three_quarters; S754_nan]))) = true
    ∧ ∀ score,
        best_score (EarlyStopping_call self score).1.2 =
          if Float.ltb Float.default_threshold
                       (Float.sub score (best_score self))
          then score else best_score self.
Proof.
  assert (h1 : Float.ltb Float.default_threshold Float.zero = false)
    by reflexivity.
  assert (h2 : Forall (fun s => Float.valid s = true)
                 ([Float.half; Float.quarter]
                  ++ [Float.three_quarters; S754_nan]))
    by (repeat constructor).
  exact (conj h1 (conj h2
    (best_score_non_decreasing false 5 Float.default_threshold
       [Float.half; Float.quarter] [Float.three_quarters; S754_nan] h1 h2))).
Defined.

Example early_stopping_run :
  let init := EarlyStopping_init false 2 "max" Float.default_threshold in
  best_score (EarlyStopping_run init [Float.half; Float.quarter]) = Float.half
  ∧ best_score
      (EarlyStopping_run init
         [Float.half; Float.quarter; Float.three_quarters; S754_nan])
    = Float.three_quarters
  ∧ (EarlyStopping_call (EarlyStopping_run init [Float.half; Float.quarter])
                        Float.quarter).1.1 = false.
Proof. repeat split; vm_compute; reflexivity. Qed.

End EarlyStoppingFacts.

(** * Further properties *)

(** ** Vocabulary: ranges, round trips, growth *)

Section VocabularyMore.

Variables PAD UNK_WORD START_SEQ END_SEQ : string.

Local Abbreviation reserved := (reserved_word2idx PAD UNK_WORD START_SEQ END_SEQ).
Local Abbreviation init := (Vocabulary_init PAD UNK_WORD START_SEQ END_SEQ).
Local Abbreviation call := (Vocabulary_call UNK_WORD).
Local Abbreviation encode := (encode_seq UNK_WORD).
Local Abbreviation vocab_inv := (vocab_inv UNK_WORD).
Local Abbreviation distinct := (NoDup [PAD; UNK_WORD; START_SEQ; END_SEQ]).

Lemma built_inv words : vocab_inv (foldl add_word init words).
Proof. apply add_words_inv, init_inv. Qed.

Lemma distinct_reserved_lookup :
  distinct →
  reserved !! PAD = Some 0 ∧ reserved !! UNK_WORD = Some 1
  ∧ reserved !! START_SEQ = Some 2 ∧ reserved !! END_SEQ = Some 3.
Proof.
  intros Hnd.
  apply NoDup_cons in Hnd as [H1 Hnd]. apply NoDup_cons in Hnd as [H2 Hnd].
  apply NoDup_cons in Hnd as [H3 _]. set_unfold.
  repeat split; rewrite reserved_lookup; repeat case_decide; naive_solver.
Qed.

Lemma init_dense : distinct → vocab_dense init.
Proof.
  intros Hnd.
  destruct (distinct_reserved_lookup Hnd) as (H0 & H1 & H2 & H3).
  split.
  - cbn. unfold reserved_word2idx in *.
    apply NoDup_cons in Hnd as [N1 Hnd]. apply NoDup_cons in Hnd as [N2 Hnd].
    apply NoDup_cons in Hnd as [N3 _]. set_unfold.
    rewrite !map_size_insert_None, map_size_empty; [done | ..];
      rewrite ?lookup_insert_ne by naive_solver; apply lookup_empty.
  - intros i Hi. cbn in *.
    assert (i = 0 ∨ i = 1 ∨ i = 2 ∨ i = 3) as [-> | [-> | [-> | ->]]] by lia;
      eexists; apply dict_invert_lookup; eauto using reserved_injective.
Qed.

Lemma add_word_dense v word : vocab_dense v → vocab_dense (add_word v word).
Proof.
  intros [Hsize Hdom]. unfold add_word.
  destruct (word2idx v !! word) eqn:Hw; [done |].
  split; cbn.
  - by rewrite map_size_insert_None, Hsize.
  - intros i Hi. rewrite lookup_insert. case_decide; [eauto |].
    apply Hdom. lia.
Qed.

Lemma built_dense words : distinct → vocab_dense (foldl add_word init words).
Proof.
  intros Hnd. generalize (init_dense Hnd). generalize init.
  induction words as [| w words IH]; intros v Hv; cbn; [done |].
  by apply IH, add_word_dense.
Qed.

Lemma mapM_Return {A B} (f : A → result B) (g : A → B) (l : list A) :
  Forall (fun x => f x = Return (g x)) l → mapM f l = Return (g <$> l).
Proof.
  induction 1 as [| x l Hx _ IH]; [done |].
  cbn. rewrite Hx. cbn. by rewrite IH.
Qed.

Lemma mapM_Raise {A B} (f : A → result B) (e : exn) (l : list A) :
  (∀ x e', f x = Raise e' → e' = e) →
  Exists (fun x => f x = Raise e) l → mapM f l = Raise e.
Proof.
  intros Honly. induction 1 as [x l Hx | x l _ IH]; cbn.
  - by rewrite Hx.
  - destruct (f x) as [b | e'] eqn:Hfx; cbn.
    + by rewrite IH.
    + by rewrite (Honly _ _ Hfx).
Qed.

Lemma call_built words token :
  let v := foldl add_word init words in
  ∃ i, call v token = Return i ∧ i < idx v
       ∧ idx2word v !! i
         = Some (if decide (is_Some (word2idx v !! token)) then token
                 else UNK_WORD).
Proof.
  intros v. pose proof (built_inv words) as Hv. fold v in Hv.
  destruct (word2idx v !! token) as [i |] eqn:Ht.
  - exists i. rewrite decide_True by eauto.
    split; [by apply call_present |].
    split; [by eapply inv_lt | by apply (inv_fwd Hv)].
  - destruct (inv_unk Hv) as [u Hu]. exists u.
    rewrite decide_False by (by intros [? ?]).
    split; [by apply call_absent |].
    split; [by eapply inv_lt | by apply (inv_fwd Hv)].
Qed.

(** X1: on a built vocabulary [encode_seq] never raises: it returns one
    id per token, each below the next free id; and when the reserved
    symbols are distinct, each below [len(vocab)]. *)
Theorem encode_seq_total (words tokens : list string) :
  let v := foldl add_word init words in
  ∃ ids, encode v tokens = Return ids
         ∧ length ids = length tokens
         ∧ Forall (fun i => i < idx v) ids
         ∧ (distinct → Forall (fun i => i < Vocabulary_len v) ids).
Proof.
  intros v.
  assert (Hgen : ∃ ids, encode v tokens = Return ids
                        ∧ length ids = length tokens
                        ∧ Forall (fun i => i < idx v) ids).
  { induction tokens as [| t tokens (ids & He & Hl & Hr)].
    - by exists [].
    - destruct (call_built words t) as (i & Hc & Hi & _). fold v in Hc, Hi.
      exists (i :: ids). unfold encode_seq in *. cbn. rewrite Hc. cbn.
      rewrite He. cbn. split; [done |]. split; [by rewrite Hl |].
      by constructor. }
  destruct Hgen as (ids & He & Hl & Hr). exists ids.
  repeat split; try done.
  intros Hnd. destruct (built_dense words Hnd) as [Hsize _].
  unfold Vocabulary_len. fold v in Hsize. by rewrite Hsize.
Qed.

(** X2: on a built vocabulary, decoding the encoding of any token
    sequence gives the sequence back with every token that is not in the
    vocabulary replaced by [UNK_WORD]. *)
Theorem decode_encode_unknowns (words tokens : list string) :
  let v := foldl add_word init words in
  ∃ ids, encode v tokens = Return ids
         ∧ decode_seq v ids
           = Return ((fun t => if decide (is_Some (word2idx v !! t)) then t
                               else UNK_WORD) <$> tokens).
Proof.
  intros v. induction tokens as [| t tokens (ids & He & Hd)].
  - by exists [].
  - destruct (call_built words t) as (i & Hc & _ & Hi). fold v in Hc, Hi.
    exists (i :: ids). unfold encode_seq, decode_seq in *. cbn.
    rewrite Hc. cbn. rewrite He. cbn. split; [done |].
    rewrite Hd. unfold dict_getitem. by rewrite Hi.
Qed.

(** X3: on a built vocabulary, encoding what [decode_seq] returned gives
    the ids back. *)
Theorem encode_decode_ids (words : list string) (ids : list nat)
    (tokens : list string) :
  let v := foldl add_word init words in
  decode_seq v ids = Return tokens → encode v tokens = Return ids.
Proof.
  intros v. pose proof (built_inv words) as Hv. fold v in Hv.
  unfold decode_seq, encode_seq. revert tokens.
  induction ids as [| i ids IH]; intros tokens; cbn.
  - by intros [= <-].
  - destruct (dict_getitem (idx2word v) i) as [w |] eqn:Hg; [| done]. cbn.
    destruct (mapM (dict_getitem (idx2word v)) ids) as [ws |] eqn:Hws;
      [| done].
    cbn. intros [= <-]. cbn.
    assert (Hi : idx2word v !! i = Some w).
    { unfold dict_getitem in Hg. destruct (idx2word v !! i); congruence. }
    rewrite (call_present _ _ _ _ (inv_bwd Hv _ _ Hi)). cbn.
    by rewrite (IH ws eq_refl).
Qed.

(** X4: when the reserved symbols are distinct, [decode_seq] on a built
    vocabulary returns a token per id if every id is below [len(vocab)],
    and raises KeyError as soon as one id is not. *)
Theorem decode_seq_range (words : list string) (ids : list nat) :
  distinct →
  let v := foldl add_word init words in
  (Forall (fun i => i < Vocabulary_len v) ids →
   ∃ tokens, decode_seq v ids = Return tokens ∧ length tokens = length ids)
  ∧ (Exists (fun i => Vocabulary_len v ≤ i) ids →
     decode_seq v ids = Raise KeyError).
Proof.
  intros Hnd v. pose proof (built_inv words) as Hv. fold v in Hv.
  destruct (built_dense words Hnd) as [Hsize Hdom]. fold v in Hsize, Hdom.
  unfold Vocabulary_len. rewrite Hsize. split.
  - induction 1 as [| i ids Hi _ (tokens & Hd & Hl)].
    + by exists [].
    + destruct (Hdom i Hi) as [w Hw]. exists (w :: tokens).
      unfold decode_seq, dict_getitem in *. cbn. rewrite Hw. cbn.
      rewrite Hd. cbn. by rewrite Hl.
  - intros Hex. apply mapM_Raise.
    + intros i e. unfold dict_getitem. destruct (idx2word v !! i); congruence.
    + eapply Exists_impl; [exact Hex |]. intros i Hi. cbn in *.
      unfold dict_getitem.
      destruct (idx2word v !! i) as [w |] eqn:Hw; [| done].
      apply (inv_bwd Hv), (inv_lt Hv) in Hw. lia.
Qed.

(** X5: when the reserved symbols are distinct, adding a word that a
    built vocabulary lacks gives it the id [len(vocab)], so that it
    encodes to and decodes from that id, and makes [len(vocab)] grow by
    one; adding a word that is there changes nothing. *)
Theorem add_word_effect (words : list string) (word : string) :
  distinct →
  let v := foldl add_word init words in
  (word2idx v !! word = None →
   call (add_word v word) word = Return (Vocabulary_len v)
   ∧ decode_seq (add_word v word) [Vocabulary_len v] = Return [word]
   ∧ Vocabulary_len (add_word v word) = S (Vocabulary_len v))
  ∧ (is_Some (word2idx v !! word) → add_word v word = v).
Proof.
  intros Hnd v.
  destruct (built_dense words Hnd) as [Hsize _]. fold v in Hsize.
  split.
  - intros Habs. unfold Vocabulary_len, add_word, Vocabulary_call, decode_seq,
      dict_getitem. rewrite Habs. cbn.
    rewrite !lookup_insert_eq, map_size_insert_None by done.
    rewrite Hsize. cbn. by rewrite lookup_insert_eq.
  - intros [i Hi]. unfold add_word. by rewrite Hi.
Qed.

(** X6: the ids of the words of a vocabulary are stable under growth:
    after any further [add_word] calls, a sequence of tokens that were all
    present is encoded as before. *)
Theorem encode_seq_stable (v : Vocabulary) (more tokens : list string) :
  Forall (fun t => is_Some (word2idx v !! t)) tokens →
  encode (foldl add_word v more) tokens = encode v tokens.
Proof.
  unfold encode_seq. induction 1 as [| t tokens [i Hi] _ IH]; [done |].
  cbn. rewrite IH.
  rewrite (call_present _ _ _ _ Hi).
  by rewrite (call_present _ _ _ _ (add_words_lookup_mono _ _ _ _ Hi)).
Qed.

End VocabularyMore.

(** ** get_vocabulary: which words, how many *)

Section GetVocabularyMore.

Variables PAD UNK_WORD START_SEQ END_SEQ : string.

Local Abbreviation reserved := (reserved_word2idx PAD UNK_WORD START_SEQ END_SEQ).
Local Abbreviation init := (Vocabulary_init PAD UNK_WORD START_SEQ END_SEQ).
Local Abbreviation build := (get_vocabulary PAD UNK_WORD START_SEQ END_SEQ).
Local Abbreviation distinct := (NoDup [PAD; UNK_WORD; START_SEQ; END_SEQ]).

Lemma frequency_elem records t :
  0 < frequency records t → t ∈ all_tokens records.
Proof.
  intros Hpos. destruct (decide (t ∈ all_tokens records)) as [| Hn]; [done |].
  apply occurrences_not_elem in Hn. unfold frequency in Hpos. lia.
Qed.

(** Adding distinct words moves the next free id by the number of those
    that are new. *)
Lemma add_words_idx ws v :
  NoDup ws →
  idx (foldl add_word v ws)
  = idx v + length (filter (fun w => word2idx v !! w = None) ws).
Proof.
  intros Hnd. revert v.
  induction Hnd as [| x ws Hx Hnd IH]; intros v; [cbn; lia |].
  rewrite filter_cons. cbn [foldl].
  destruct (decide (word2idx v !! x = None)) as [Habs | Hpres].
  - rewrite IH.
    assert (filter (fun w => word2idx (add_word v x) !! w = None) ws
            = filter (fun w => word2idx v !! w = None) ws) as ->.
    { apply filter_ext_elem. intros y Hy.
      rewrite add_word_other; [done | by intros ->]. }
    unfold add_word. rewrite Habs. cbn. lia.
  - assert (add_word v x = v) as ->; [| by apply IH].
    unfold add_word. by destruct (word2idx v !! x).
Qed.

(** X7: a word has an id in the vocabulary built by [get_vocabulary]
    exactly when it is a reserved symbol or occurs at least five times in
    the corpus. *)
Theorem get_vocabulary_domain (records : list string) (t : string) :
  is_Some (word2idx (build records) !! t)
  ↔ is_Some (reserved !! t) ∨ 5 ≤ frequency records t.
Proof.
  rewrite get_vocabulary_fold.
  set (ws := filter (fun t => 5 ≤ frequency records t)
                    (first_encountered (all_tokens records))).
  assert (Hws : t ∈ ws ↔ 5 ≤ frequency records t).
  { unfold ws. rewrite list_elem_of_filter, first_encountered_elem.
    split; [by intros [? _] |]. intros Hf. split; [done |].
    apply frequency_elem. lia. }
  split.
  - intros Hsome. destruct (decide (t ∈ ws)) as [Hin | Hout].
    + right. by apply Hws.
    + left. by rewrite add_words_absent in Hsome.
  - intros [[i Hi] | Hf].
    + exists i. by apply add_words_lookup_mono.
    + by apply add_words_present, Hws.
Qed.

(** X8: when the reserved symbols are distinct, the size of the
    vocabulary built by [get_vocabulary] is 4 plus the number of distinct
    tokens that occur at least five times and are not reserved symbols. *)
Theorem get_vocabulary_len (records : list string) :
  distinct →
  Vocabulary_len (build records)
  = 4 + length (filter (fun t => reserved !! t = None)
                  (filter (fun t => 5 ≤ frequency records t)
                     (first_encountered (all_tokens records)))).
Proof.
  intros Hnd. rewrite get_vocabulary_fold.
  destruct (built_dense PAD UNK_WORD START_SEQ END_SEQ
              (filter (fun t => 5 ≤ frequency records t)
                 (first_encountered (all_tokens records))) Hnd) as [Hsize _].
  unfold Vocabulary_len. rewrite Hsize.
  rewrite add_words_idx by apply NoDup_filter, first_encountered_NoDup.
  done.
Qed.

End GetVocabularyMore.

Section VocabularyInstances.
Import Sample_data.

Local Abbreviation small_vocab :=
  (foldl add_word (Vocabulary_init PAD UNK_WORD START_SEQ END_SEQ) ["a"; "dog"]).

Lemma sample_reserved_distinct : NoDup [PAD; UNK_WORD; START_SEQ; END_SEQ].
Proof.
  repeat (apply NoDup_cons; split;
          [rewrite ?elem_of_cons, ?elem_of_nil; intuition discriminate |]).
  apply NoDup_nil_2.
Qed.

(** X4 at a concrete input. *)
Lemma decode_seq_range_witness :
  NoDup [PAD; UNK_WORD; START_SEQ; END_SEQ]
  ∧ Forall (fun i => i < Vocabulary_len small_vocab) [5; 0; 4]
  ∧ Exists (fun i => Vocabulary_len small_vocab ≤ i) [5; 6; 4]
  ∧ (∃ tokens, decode_seq small_vocab [5; 0; 4] = Return tokens
               ∧ length tokens = length [5; 0; 4])
  ∧ decode_seq small_vocab [5; 6; 4] = Raise KeyError.
Proof.
  assert (h1 : Forall (fun i => i < Vocabulary_len small_vocab) [5; 0; 4]).
  { repeat (apply Forall_cons; split; [vm_compute; lia |]). apply Forall_nil_2. }
  assert (h2 : Exists (fun i => Vocabulary_len small_vocab ≤ i) [5; 6; 4]).
  { apply Exists_cons_tl, Exists_cons_hd. vm_compute. lia. }
  exact (conj sample_reserved_distinct (conj h1 (conj h2 (conj
    (proj1 (decode_seq_range PAD UNK_WORD START_SEQ END_SEQ ["a"; "dog"]
              [5; 0; 4] sample_reserved_distinct) h1)
    (proj2 (decode_seq_range PAD UNK_WORD START_SEQ END_SEQ ["a"; "dog"]
              [5; 6; 4] sample_reserved_distinct) h2))))).
Defined.

End VocabularyInstances.

Section VocabularyInstances2.
Import Sample_data.

Local Abbreviation small_vocab :=
  (foldl add_word (Vocabulary_init PAD UNK_WORD START_SEQ END_SEQ) ["a"; "dog"]).

(** X3 at a concrete input. *)
Lemma encode_decode_ids_witness :
  decode_seq small_vocab [5; 1; 4] = Return ["dog"; "<unk>"; "a"]
  ∧ encode_seq UNK_WORD small_vocab ["dog"; "<unk>"; "a"] = Return [5; 1; 4].
Proof.
  assert (h : decode_seq small_vocab [5; 1; 4] = Return ["dog"; "<unk>"; "a"])
    by (vm_compute; reflexivity).
  exact (conj h (encode_decode_ids PAD UNK_WORD START_SEQ END_SEQ
                   ["a"; "dog"] [5; 1; 4] ["dog"; "<unk>"; "a"] h)).
Defined.

(** X5 at a concrete input: "cat" is new, "dog" is not. *)
Lemma add_word_effect_witness :
  NoDup [PAD; UNK_WORD; START_SEQ; END_SEQ]
  ∧ word2idx small_vocab !! "cat" = None
  ∧ is_Some (word2idx small_vocab !! "dog")
  ∧ (Vocabulary_call UNK_WORD (add_word small_vocab "cat") "cat"
       = Return (Vocabulary_len small_vocab)
     ∧ decode_seq (add_word small_vocab "cat") [Vocabulary_len small_vocab]
       = Return ["cat"]
     ∧ Vocabulary_len (add_word small_vocab "cat")
       = S (Vocabulary_len small_vocab))
  ∧ add_word small_vocab "dog" = small_vocab.
Proof.
  assert (h1 : word2idx small_vocab !! "cat" = None)
    by (vm_compute; reflexivity).
  assert (h2 : is_Some (word2idx small_vocab !! "dog"))
    by (vm_compute; eauto).
  exact (conj sample_reserved_distinct (conj h1 (conj h2 (conj
    (proj1 (add_word_effect PAD UNK_WORD START_SEQ END_SEQ ["a"; "dog"] "cat"
              sample_reserved_distinct) h1)
    (proj2 (add_word_effect PAD UNK_WORD START_SEQ END_SEQ ["a"; "dog"] "dog"
              sample_reserved_distinct) h2))))).
Defined.

(** X6 at a concrete input. *)
Lemma encode_seq_stable_witness :
  Forall (fun t => is_Some (word2idx small_vocab !! t)) ["dog"; "a"]
  ∧ encode_seq UNK_WORD (foldl add_word small_vocab ["cat"; "runs"]) ["dog"; "a"]
    = encode_seq UNK_WORD small_vocab ["dog"; "a"].
Proof.
  assert (h : Forall (fun t => is_Some (word2idx small_vocab !! t))
                     ["dog"; "a"]).
  { repeat (apply Forall_cons; split; [vm_compute; eauto |]).
    apply Forall_nil_2. }
  exact (conj h (encode_seq_stable UNK_WORD small_vocab ["cat"; "runs"]
                   ["dog"; "a"] h)).
Defined.

(** X8 at a concrete input: the sample corpus gives six entries. *)
Lemma get_vocabulary_len_witness :
  NoDup [PAD; UNK_WORD; START_SEQ; END_SEQ]
  ∧ Vocabulary_len the_vocab
    = 4 + length (filter (fun t => reserved_word2idx PAD UNK_WORD START_SEQ
                                     END_SEQ !! t = None)
                    (filter (fun t => 5 ≤ frequency corpus t)
                       (first_encountered (all_tokens corpus)))).
Proof.
  exact (conj sample_reserved_distinct
    (get_vocabulary_len PAD UNK_WORD START_SEQ END_SEQ corpus
       sample_reserved_distinct)).
Defined.

End VocabularyInstances2.

(** ** Tokenizer: whitespace and fixed points *)

Section TokenizerMore.

Lemma append_cons c (a b : string) : String c a +:+ b = String c (a +:+ b).
Proof. reflexivity. Qed.

Lemma append_nil_r (a : string) : a +:+ "" = a.
Proof.
  induction a as [| c a IH]; [done |]. by rewrite append_cons, IH.
Qed.

Lemma append_assoc (a b c : string) : (a +:+ b) +:+ c = a +:+ (b +:+ c).
Proof.
  induction a as [| x a IH]; [done |]. by rewrite !append_cons, IH.
Qed.

Lemma rev_app_append (a b : string) :
  String.rev_app a b = String.rev a +:+ b.
Proof.
  unfold String.rev. revert b.
  induction a as [| c a IH]; intros b; [done |].
  cbn [String.rev_app].
  by rewrite IH, (IH (String c "")), append_assoc.
Qed.

Lemma rev_cons c (a : string) :
  String.rev (String c a) = String.rev a +:+ String c "".
Proof. unfold String.rev at 1. cbn [String.rev_app]. apply rev_app_append. Qed.

Lemma rev_append (a b : string) :
  String.rev (a +:+ b) = String.rev b +:+ String.rev a.
Proof.
  induction a as [| c a IH].
  - by rewrite append_nil_r.
  - by rewrite append_cons, !rev_cons, IH, append_assoc.
Qed.

Lemma rev_involutive (a : string) : String.rev (String.rev a) = a.
Proof.
  induction a as [| c a IH]; [done |].
  by rewrite rev_cons, rev_append, IH.
Qed.

Lemma all_chars_append p (a b : string) :
  PyStr.all_chars p (a +:+ b) = PyStr.all_chars p a && PyStr.all_chars p b.
Proof.
  induction a as [| c a IH]; [done |].
  rewrite append_cons. cbn [PyStr.all_chars]. rewrite IH. by destruct (p c).
Qed.

Lemma all_chars_rev p (a : string) :
  PyStr.all_chars p (String.rev a) = PyStr.all_chars p a.
Proof.
  induction a as [| c a IH]; [done |].
  rewrite rev_cons, all_chars_append, IH. cbn [PyStr.all_chars].
  destruct (p c), (PyStr.all_chars p a); done.
Qed.

(** [split] cuts at a whitespace character. *)
Lemma split_go_append cur (a b : string) c :
  PyStr.isspace c = true →
  PyStr.split_go cur (a +:+ String c b)
  = PyStr.split_go cur a ++ PyStr.split_go "" b.
Proof.
  intros Hc. revert cur.
  induction a as [| x a IH]; intros cur.
  - change ("" +:+ String c b) with (String c b).
    cbn [PyStr.split_go]. by rewrite Hc.
  - rewrite append_cons. cbn [PyStr.split_go].
    destruct (PyStr.isspace x); [| apply IH].
    by rewrite IH, app_assoc.
Qed.

(** Whitespace at the end adds no piece. *)
Lemma split_go_trailing cur (a ws : string) :
  PyStr.all_chars PyStr.isspace ws = true →
  PyStr.split_go cur (a +:+ ws) = PyStr.split_go cur a.
Proof.
  intros Hws. revert cur.
  induction a as [| x a IH]; intros cur.
  - change ("" +:+ ws) with ws. revert cur.
    induction ws as [| c ws IHw]; intros cur; [done |].
    cbn [PyStr.all_chars] in Hws. apply andb_prop in Hws as [Hc Hws].
    cbn [PyStr.split_go]. rewrite Hc, (IHw Hws "").
    cbn [PyStr.split_go PyStr.flush]. apply app_nil_r.
  - rewrite append_cons. cbn [PyStr.split_go].
    destruct (PyStr.isspace x); by rewrite IH.
Qed.

Lemma split_lstrip (s : string) : PyStr.split (PyStr.lstrip s) = PyStr.split s.
Proof.
  unfold PyStr.split. induction s as [| c s IH]; [done |].
  cbn [PyStr.lstrip PyStr.split_go].
  destruct (PyStr.isspace c) eqn:Hc; [exact IH |].
  cbn [PyStr.split_go]. by rewrite Hc.
Qed.

(** What [lstrip] removes is whitespace. *)
Lemma lstrip_prefix (s : string) :
  ∃ ws, s = ws +:+ PyStr.lstrip s ∧ PyStr.all_chars PyStr.isspace ws = true.
Proof.
  induction s as [| c s (ws & Hs & Hws)].
  - by exists "".
  - cbn [PyStr.lstrip]. destruct (PyStr.isspace c) eqn:Hc.
    + exists (String c ws). rewrite append_cons, <- Hs.
      cbn [PyStr.all_chars]. by rewrite Hc, Hws.
    + by exists "".
Qed.

Lemma split_strip (s : string) : PyStr.split (PyStr.strip s) = PyStr.split s.
Proof.
  unfold PyStr.strip. rewrite <- (split_lstrip s).
  generalize (PyStr.lstrip s). intros t.
  destruct (lstrip_prefix (String.rev t)) as (ws & Ht & Hws).
  apply (f_equal String.rev) in Ht.
  rewrite rev_involutive, rev_append in Ht.
  rewrite Ht at 2. unfold PyStr.split.
  rewrite split_go_trailing; [done |]. by rewrite all_chars_rev.
Qed.

(** X9: whitespace around a caption does not matter to the tokenizer,
    and tokenizing two texts joined by a whitespace character gives the
    tokens of the first followed by the tokens of the second. *)
Theorem tokenize_whitespace (a b : string) (c : ascii) :
  tokenize (PyStr.strip a) = tokenize a
  ∧ (PyStr.isspace c = true →
     tokenize (a +:+ String c b) = tokenize a ++ tokenize b).
Proof.
  split.
  - unfold tokenize. by rewrite split_strip.
  - intros Hc. unfold tokenize, PyStr.split.
    rewrite split_go_append by done.
    by rewrite List.filter_app, List.map_app, List.filter_app.
Qed.

Lemma lower_alnum_char_facts c :
  PyStr.is_lower_alnum c = true →
  PyStr.isspace c = false ∧ PyStr.isalnum_char c = true
  ∧ PyStr.lower_char c = c ∧ PyStr.is_ascii_alnum c = true.
Proof. destruct c as [[] [] [] [] [] [] [] []]; vm_compute; intuition congruence. Qed.

Lemma tokenize_elem caption t :
  t ∈ tokenize caption →
  t ≠ "" ∧ PyStr.all_chars PyStr.is_lower_alnum t = true.
Proof.
  intros Ht. unfold tokenize in Ht.
  apply list_elem_of_In, filter_In in Ht as [Ht Hne].
  apply in_map_iff in Ht as (piece & <- & _).
  split; [| apply sub_lower_chars].
  intros Hempty. by rewrite Hempty in Hne.
Qed.

Lemma split_go_plain cur (t : string) :
  PyStr.all_chars PyStr.is_lower_alnum t = true →
  PyStr.split_go cur t = PyStr.flush (String.rev_app t cur).
Proof.
  revert cur. induction t as [| c t IH]; intros cur Ht; [done |].
  cbn [PyStr.all_chars] in Ht. apply andb_prop in Ht as [Hc Ht].
  destruct (lower_alnum_char_facts c Hc) as (Hs & _).
  cbn [PyStr.split_go String.rev_app]. rewrite Hs. by apply IH.
Qed.

Lemma plain_token_facts (t : string) :
  PyStr.all_chars PyStr.is_lower_alnum t = true →
  PyStr.all_chars PyStr.isalnum_char t = true
  ∧ PyStr.lower t = t ∧ PyStr.sub_non_alnum t = t.
Proof.
  induction t as [| c t IH]; [done |].
  cbn [PyStr.all_chars]. intros Ht. apply andb_prop in Ht as [Hc Ht].
  destruct (lower_alnum_char_facts c Hc) as (_ & Ha & Hl & Hs).
  destruct (IH Ht) as (IH1 & IH2 & IH3).
  cbn [PyStr.lower PyStr.sub_non_alnum].
  by rewrite Ha, IH1, Hl, IH2, Hs, IH3.
Qed.

(** A non-empty word over a-z and 0-9 is tokenized to itself. *)
Lemma tokenize_plain_token (t : string) :
  t ≠ "" → PyStr.all_chars PyStr.is_lower_alnum t = true →
  tokenize t = [t].
Proof.
  intros Hne Ht.
  assert (Hsplit : PyStr.split t = [t]).
  { unfold PyStr.split. rewrite split_go_plain by done.
    fold (String.rev t). unfold PyStr.flush.
    destruct (String.rev t) as [| c r] eqn:Hr.
    - apply (f_equal String.rev) in Hr. rewrite rev_involutive in Hr.
      by destruct Hne.
    - by rewrite <- Hr, rev_involutive. }
  destruct (plain_token_facts t Ht) as (Ha & Hl & Hs).
  unfold tokenize. rewrite Hsplit. cbn [List.filter].
  assert (PyStr.isalnum t = true) as ->.
  { unfold PyStr.isalnum. by destruct t. }
  cbn [map List.filter]. rewrite Hl, Hs.
  by destruct t.
Qed.

(** X10: the tokens are fixed points of the tokenizer: each token of a
    caption is tokenized to itself alone, so tokenizing the tokens anew
    changes nothing. *)
Theorem tokenize_fixed_points (caption : string) :
  Forall (fun t => tokenize t = [t]) (tokenize caption)
  ∧ concat (tokenize <$> tokenize caption) = tokenize caption.
Proof.
  assert (Hfix : Forall (fun t => tokenize t = [t]) (tokenize caption)).
  { apply Forall_forall. intros t Ht.
    destruct (tokenize_elem caption t Ht) as [Hne Hch].
    by apply tokenize_plain_token. }
  split; [done |].
  induction Hfix as [| t l Ht _ IH]; [done |].
  csimpl. by rewrite Ht, IH.
Qed.

(** X9 at a concrete input. *)
Lemma tokenize_whitespace_witness :
  PyStr.isspace "010" = true
  ∧ tokenize (PyStr.strip "  A dog ") = tokenize "  A dog "
  ∧ tokenize ("  A dog " +:+ String "010" "runs 2day")
    = tokenize "  A dog " ++ tokenize "runs 2day".
Proof.
  assert (h : PyStr.isspace "010" = true) by reflexivity.
  exact (conj h (conj
    (proj1 (tokenize_whitespace "  A dog " "" "010"))
    (proj2 (tokenize_whitespace "  A dog " "runs 2day" "010") h))).
Defined.

End TokenizerMore.

(** ** FlickrConvRNN: labels, repeated fetches, outcomes *)

Section DatasetMore.

Variables PAD UNK_WORD START_SEQ END_SEQ : string.
Variable Img : Type.
Variable image_open : string → result Img.

Local Abbreviation init := (Vocabulary_init PAD UNK_WORD START_SEQ END_SEQ).
Local Abbreviation fetch := (getitem UNK_WORD START_SEQ END_SEQ image_open).
Local Abbreviation loop := (caption_loop UNK_WORD START_SEQ END_SEQ Img).
Local Abbreviation wrap :=
  (fun caption : string => [START_SEQ] ++ tokenize caption ++ [END_SEQ]).
Local Abbreviation distinct := (NoDup [PAD; UNK_WORD; START_SEQ; END_SEQ]).

Lemma group_step (acc : gmap string (list string)) (r : string * string) :
  (let '(l, labels) := defaultdict_getitem acc r.1 in
   <[r.1 := l ++ [PyStr.strip r.2]]> labels)
  = <[r.1 := default [] (acc !! r.1) ++ [PyStr.strip r.2]]> acc.
Proof.
  unfold defaultdict_getitem. destruct (acc !! r.1); cbn; [done |].
  by rewrite insert_insert_eq.
Qed.

Lemma comments_of_cons r (records : list (string * string)) key :
  comments_of (r :: records) key
  = (if decide (r.1 = key) then [PyStr.strip r.2] else [])
    ++ comments_of records key.
Proof.
  unfold comments_of. rewrite filter_cons. by case_decide.
Qed.

Lemma group_labels_from (records : list (string * string)) acc key :
  foldl (fun labels record =>
           let '(l, labels) := defaultdict_getitem labels record.1 in
           <[record.1 := l ++ [PyStr.strip record.2]]> labels)
        acc records !! key
  = if decide (comments_of records key = []) then acc !! key
    else Some (default [] (acc !! key) ++ comments_of records key).
Proof.
  revert acc. induction records as [| r records IH]; intros acc; [done |].
  cbn [foldl]. rewrite group_step, IH, comments_of_cons. clear IH.
  generalize (comments_of records key). intros l.
  destruct (decide (r.1 = key)) as [<- | Hne].
  - rewrite lookup_insert_eq. cbn [default].
    rewrite (decide_False (P := [_] ++ l = [])) by done.
    destruct (decide (l = [])) as [-> | Hl]; unfold id.
    + by rewrite app_nil_r.
    + by rewrite <- app_assoc.
  - by rewrite lookup_insert_ne.
Qed.

Lemma comments_of_filter (ids : list string) records key :
  comments_of (filter (fun r => r.1 ∈ ids) records) key
  = if decide (key ∈ ids) then comments_of records key else [].
Proof.
  induction records as [| r records IH].
  - by case_decide.
  - rewrite filter_cons, (comments_of_cons r records).
    destruct (decide (r.1 ∈ ids)) as [Hin | Hout].
    + rewrite comments_of_cons, IH. clear IH.
      destruct (decide (key ∈ ids)), (decide (r.1 = key));
        naive_solver.
    + rewrite IH. clear IH.
      destruct (decide (key ∈ ids)), (decide (r.1 = key));
        naive_solver.
Qed.

(** X11: the labels of a dataset are the rows of the label file grouped
    by image name: an image of the split that has rows is stored with the
    stripped comments of its rows, in file order; any other key is
    absent. *)
Theorem init_labels (dir : string) (ids : list string)
    (records : list (string * string)) (tr : option (Img → Img))
    (voc : Vocabulary) (first_only : bool) (key : string) :
  labels (FlickrConvRNN_init dir ids records tr voc first_only) !! key
  = if decide (key ∈ ids ∧ comments_of records key ≠ [])
    then Some (comments_of records key)
    else None.
Proof.
  cbn [labels FlickrConvRNN_init]. unfold group_labels.
  rewrite group_labels_from, comments_of_filter, lookup_empty. cbn.
  destruct (decide (key ∈ ids)) as [Hin | Hout].
  - destruct (decide (comments_of records key = [])) as [Hnil | Hne].
    + rewrite decide_False; [done | by intros [_ ?]].
    + by rewrite decide_True.
  - rewrite decide_True by done.
    rewrite decide_False; [done | by intros [? _]].
Qed.

Lemma caption_loop_fields (a b : FlickrConvRNN Img) i caps acc :
  first_caption_only a = first_caption_only b → vocab a = vocab b →
  loop a i caps acc = loop b i caps acc.
Proof.
  intros Hf Hv. revert i acc.
  induction caps as [| c caps IH]; intros i acc; [done |].
  cbn [caption_loop].
  assert (caption_step UNK_WORD START_SEQ END_SEQ Img a acc i c
          = caption_step UNK_WORD START_SEQ END_SEQ Img b acc i c) as ->.
  { unfold caption_step. by rewrite Hf, Hv. }
  destruct (caption_step _ _ _ _ b acc i c) as [acc' |]; [apply IH | done].
Qed.

Lemma defaultdict_getitem_default (d : gmap string (list string)) key :
  (defaultdict_getitem d key).1 = default [] (d !! key)
  ∧ ∀ k, default [] ((defaultdict_getitem d key).2 !! k)
         = default [] (d !! k).
Proof.
  unfold defaultdict_getitem. destruct (d !! key) eqn:Hd; cbn; [done |].
  split; [done |]. intros k.
  destruct (decide (key = k)) as [<- | Hne].
  - by rewrite lookup_insert_eq, Hd.
  - by rewrite lookup_insert_ne.
Qed.

Lemma same_captions_refl (a : FlickrConvRNN Img) : same_captions a a.
Proof. by repeat split. Qed.

Lemma same_captions_trans (a b c : FlickrConvRNN Img) :
  same_captions a b → same_captions b c → same_captions a c.
Proof.
  intros (? & ? & ? & ? & ? & Hab) (? & ? & ? & ? & ? & Hbc).
  repeat split; try congruence; intros key; by rewrite Hab.
Qed.

(** A fetch changes the dataset at most by a key stored with the empty
    list. *)
Lemma fetch_same_captions (self : FlickrConvRNN Img) idx :
  same_captions (fetch self idx).2 self.
Proof.
  unfold getitem.
  destruct (image_ids self !! idx) as [image_id |];
    [| apply same_captions_refl].
  destruct (image_open _) as [image |]; [| apply same_captions_refl].
  destruct (defaultdict_getitem (labels self) image_id) as [caps labels']
    eqn:Hd.
  pose proof (defaultdict_getitem_default (labels self) image_id) as [_ Hl].
  rewrite Hd in Hl. cbn in *. by repeat split.
Qed.

(** The outcome of a fetch depends on the labels only through the
    captions they give. *)
Lemma fetch_result_same (a b : FlickrConvRNN Img) idx :
  same_captions a b → (fetch a idx).1 = (fetch b idx).1.
Proof.
  intros (Hf & Ht & Hv & Hd & Hi & Hl). unfold getitem.
  rewrite Hi, Hd. destruct (image_ids b !! idx) as [image_id |]; [| done].
  destruct (image_open _) as [image |]; [| done].
  rewrite Hf, Ht.
  pose proof (defaultdict_getitem_default (labels a) image_id) as [Ha _].
  pose proof (defaultdict_getitem_default (labels b) image_id) as [Hb _].
  destruct (defaultdict_getitem (labels a) image_id) as [ca la].
  destruct (defaultdict_getitem (labels b) image_id) as [cb lb].
  cbn in *. rewrite Ha, Hb, Hl.
  by rewrite (caption_loop_fields (set_labels a la) (set_labels b lb)).
Qed.

(** X12: fetching is repeatable: whatever samples were fetched before,
    and in whatever order, fetching index [idx] gives the outcome it gives
    on the dataset as constructed. *)
Theorem getitem_repeatable (self : FlickrConvRNN Img) (earlier : list nat)
    (idx : nat) :
  (fetch (foldl (fun self j => (fetch self j).2) self earlier) idx).1
  = (fetch self idx).1.
Proof.
  apply fetch_result_same.
  induction earlier as [| j earlier IH] using rev_ind.
  - apply same_captions_refl.
  - rewrite foldl_snoc.
    eapply same_captions_trans; [apply fetch_same_captions | exact IH].
Qed.

Lemma encode_built words tokens :
  let v := foldl add_word init words in
  ∃ ids, encode_seq UNK_WORD v tokens = Return ids
         ∧ Forall2 (fun t i => Vocabulary_call UNK_WORD v t = Return i)
                   tokens ids
         ∧ decode_seq v ids
           = Return ((fun t => if decide (is_Some (word2idx v !! t)) then t
                               else UNK_WORD) <$> tokens).
Proof.
  intros v. induction tokens as [| t tokens (ids & He & Hf & Hd)].
  - by exists [].
  - destruct (call_built PAD UNK_WORD START_SEQ END_SEQ words t)
      as (i & Hc & _ & Hi). fold v in Hc, Hi.
    exists (i :: ids). unfold encode_seq, decode_seq in *. cbn.
    rewrite Hc. cbn. rewrite He. cbn. split; [done |].
    split; [by constructor |].
    rewrite Hd. unfold dict_getitem. by rewrite Hi.
Qed.

(** X13: with a built vocabulary a fetch fails only on its index or on
    its image: out of range it raises IndexError, an image that cannot be
    opened passes its error on, both leaving the dataset as it was; in
    every other case a sample is returned. *)
Theorem getitem_outcome (self : FlickrConvRNN Img) (words : list string)
    (idx : nat) :
  vocab self = foldl add_word init words →
  match image_ids self !! idx with
  | None => fetch self idx = (Raise IndexError, self)
  | Some image_id =>
      match image_open (path_join (image_dir self) image_id) with
      | Raise e => fetch self idx = (Raise e, self)
      | Return _ => ∃ s, (fetch self idx).1 = Return s
      end
  end.
Proof.
  intros Hvocab. unfold getitem.
  destruct (image_ids self !! idx) as [image_id |]; [| done].
  destruct (image_open _) as [image |]; [| done].
  destruct (defaultdict_getitem (labels self) image_id) as [caps labels'].
  destruct (first_caption_only self) eqn:Hfirst.
  - destruct caps as [| c caps].
    + cbn. eauto.
    + rewrite caption_loop_first by done. cbn [vocab set_labels].
      rewrite Hvocab.
      destruct (encode_built words (wrap c)) as (ids & He & _).
      rewrite He. cbn. eauto.
  - rewrite caption_loop_skip by (left; done). cbn. eauto.
Qed.

Lemma built_reserved_ids words :
  distinct →
  let v := foldl add_word init words in
  word2idx v !! START_SEQ = Some 2 ∧ word2idx v !! END_SEQ = Some 3.
Proof.
  intros Hnd v.
  destruct (distinct_reserved_lookup PAD UNK_WORD START_SEQ END_SEQ Hnd)
    as (_ & _ & H2 & H3).
  split; by apply add_words_lookup_mono.
Qed.

(** X14: in first-caption-only mode, with a built vocabulary and
    distinct reserved symbols, the encoded caption of a sample starts with
    the id 2 of [START_SEQ], ends with the id 3 of [END_SEQ], has one id
    below [len(vocab)] per token of the first caption in between, and
    decodes to the wrapped token list in which the tokens that are not in
    the vocabulary are replaced by [UNK_WORD]. *)
Theorem first_caption_encoding (self : FlickrConvRNN Img)
    (words : list string) (idx : nat) (image_id c : string)
    (caps : list string) (s : Sample Img) (self' : FlickrConvRNN Img) :
  distinct →
  vocab self = foldl add_word init words →
  first_caption_only self = true →
  image_ids self !! idx = Some image_id →
  labels self !! image_id = Some (c :: caps) →
  fetch self idx = (Return s, self') →
  ∃ body,
    captions s = [2 :: body ++ [3]]
    ∧ length body = length (tokenize c)
    ∧ Forall (fun i => i < Vocabulary_len (vocab self)) body
    ∧ decode_seq (vocab self) (2 :: body ++ [3])
      = Return ([START_SEQ]
                ++ ((fun t =>
                       if decide (is_Some (word2idx (vocab self) !! t))
                       then t else UNK_WORD) <$> tokenize c)
                ++ [END_SEQ]).
Proof.
  intros Hnd Hvocab Hfirst Hid Hl Hs.
  destruct (getitem_first_only _ _ _ _ _ _ _ _ _ _ _ _ Hfirst Hid Hl Hs)
    as (_ & Hlen & Henc & _).
  destruct (encode_built words (wrap c)) as (ids & He & Hcalls & Hdec).
  destruct (built_reserved_ids words Hnd) as [Hstart Hend].
  destruct (built_dense PAD UNK_WORD START_SEQ END_SEQ words Hnd)
    as [Hsize _].
  rewrite <- Hvocab in He, Hcalls, Hdec, Hstart, Hend, Hsize.
  assert (Hcap : captions s = [ids]).
  { destruct (captions s) as [| enc [| ? ?]]; try discriminate Hlen.
    rewrite He in Henc. injection Henc as ->. reflexivity. }
  apply Forall2_cons_inv_l in Hcalls as (i0 & rest & Hc0 & Hrest & ->).
  apply Forall2_app_inv_l in Hrest as (body & tail & Hbody & Htail & ->).
  apply Forall2_cons_inv_l in Htail as (i3 & tail' & Hc3 & Hnil & ->).
  apply Forall2_nil_inv_l in Hnil as ->.
  rewrite (call_present _ _ _ _ Hstart) in Hc0.
  rewrite (call_present _ _ _ _ Hend) in Hc3.
  injection Hc0 as <-. injection Hc3 as <-.
  exists body. split; [done |].
  split; [symmetry; by eapply Forall2_length |].
  split.
  - unfold Vocabulary_len. rewrite Hsize.
    apply Forall_forall. intros i Hi.
    apply list_elem_of_lookup in Hi as [k Hk].
    destruct (Forall2_lookup_r _ _ _ _ _ Hbody Hk) as (t & _ & Hcall).
    destruct (call_built PAD UNK_WORD START_SEQ END_SEQ words t)
      as (i' & Hc' & Hlt & _).
    rewrite <- Hvocab in Hc', Hlt. congruence.
  - rewrite Hdec. csimpl. rewrite fmap_app. csimpl.
    rewrite !decide_True by eauto. done.
Qed.

(** X22: in both modes a returned sample lists under "all_captions" every
    caption of its image, in order, as its tokens between [START_SEQ] and
    [END_SEQ]; an image without caption gives the empty list. *)
Theorem all_captions_wrapped (self : FlickrConvRNN Img) (idx : nat)
    (image_id : string) (s : Sample Img) (self' : FlickrConvRNN Img) :
  image_ids self !! idx = Some image_id →
  fetch self idx = (Return s, self') →
  all_captions s = wrap <$> default [] (labels self !! image_id)
  ∧ Forall2 (fun caption tokens =>
               length tokens = 2 + length (tokenize caption)
               ∧ head tokens = Some START_SEQ
               ∧ last tokens = Some END_SEQ)
            (default [] (labels self !! image_id)) (all_captions s).
Proof.
  intros Hid Hs.
  assert (Hall : all_captions s = wrap <$> default [] (labels self !! image_id)).
  { revert Hs. unfold getitem. rewrite Hid.
    destruct (image_open _) as [image |]; [| done].
    pose proof (defaultdict_getitem_default (labels self) image_id) as [Hd _].
    destruct (defaultdict_getitem (labels self) image_id) as [caps labels'].
    cbn in Hd. subst caps.
    destruct (first_caption_only self) eqn:Hfirst.
    - destruct (default [] (labels self !! image_id)) as [| c caps].
      + cbn. by intros [= <- <-].
      + rewrite caption_loop_first by done.
        destruct (encode_seq _ _ _) as [enc |]; [| done].
        cbn. by intros [= <- <-].
    - rewrite caption_loop_skip by (left; done). cbn. by intros [= <- <-]. }
  split; [done |]. rewrite Hall.
  apply Forall2_fmap_r, Forall_Forall2_diag, Forall_forall.
  intros caption _. split; [| split; [done |]].
  - cbn. rewrite length_app. cbn. lia.
  - change ([START_SEQ] ++ tokenize caption ++ [END_SEQ])
      with ((START_SEQ :: tokenize caption) ++ [END_SEQ]).
    apply last_snoc.
Qed.

End DatasetMore.

(** ** BatchCollateFn: outcomes *)

Section CollateMore.

Variable Img : Type.
Variable tensor_shape : Img → option (list nat).

Lemma unpad_rows (m : nat) (caps : list (list nat)) :
  zip_with take (length <$> caps)
           ((fun c => c ++ replicate (m - length c) 0) <$> caps)
  = caps.
Proof.
  induction caps as [| c caps IH]; [done |].
  csimpl. by rewrite take_app_length, IH.
Qed.

(** Tensors either share their row shape or no row shape fits them all. *)
Lemma one_row_shape_or_mixed (l : list Img) :
  (∃ rs, tensors_of_row Img tensor_shape rs l)
  ∨ (∀ rs, ¬ tensors_of_row Img tensor_shape rs l).
Proof.
  destruct l as [| x l]; [left; exists []; constructor |].
  destruct (tensor_shape x) as [sx |] eqn:Hx.
  - destruct (decide (Forall (fun image => row_shape <$> tensor_shape image
                                           = Some (row_shape sx)) l))
      as [Hl | Hl].
    + left. exists (row_shape sx). constructor; [by rewrite Hx | done].
    + right. intros rs Hrow. apply Forall_cons in Hrow as [Hrs Hrow].
      rewrite Hx in Hrs. injection Hrs as <-. done.
  - right. intros rs Hrow. apply Forall_cons in Hrow as [Hrs _].
    by rewrite Hx in Hrs.
Qed.

Lemma ids_fit_or_not (caps : list (list nat)) : ids_fit caps ∨ ¬ ids_fit caps.
Proof.
  unfold ids_fit.
  destruct (decide (Forall (Forall (fun i => fits_long i = true)) caps));
    [by left | by right].
Qed.

(** X15: every outcome of the call. An image that is no tensor stops the
    call with AttributeError; with tensors, no image at all or tensors of
    different row shapes stop it with the error of the stacking; with at
    least one image and one row shape, no caption stops it with the error
    of the maximum and an id too large for a 64-bit cell with the error
    of the tensor constructor; with at least one caption and ids that
    fit, it returns a batch. A batch is returned in that last case only,
    and it holds the images of the samples in order, their caption
    lengths, their raw caption lists, and rows from which cutting at the
    recorded lengths gives the captions back. *)
Theorem collate_outcome (data : list (Sample Img)) :
  let imgs := concat (images <$> data) in
  let caps := concat (captions <$> data) in
  let outcome := BatchCollateFn_call Img tensor_shape data in
  let returned (b : Batch Img) :=
    batch_images b = imgs
    ∧ lengths b = length <$> caps
    ∧ batch_all_captions b = all_captions <$> data
    ∧ zip_with take (lengths b) (captions_padded b) = caps in
  (Exists (fun image => tensor_shape image = None) imgs →
   outcome = Raise AttributeError)
  ∧ (imgs = [] → outcome = Raise RuntimeError)
  ∧ (Forall (fun image => is_Some (tensor_shape image)) imgs →
     (∀ rs, ¬ tensors_of_row Img tensor_shape rs imgs) →
     outcome = Raise RuntimeError)
  ∧ (∀ rs, imgs ≠ [] → tensors_of_row Img tensor_shape rs imgs →
       (caps = [] → outcome = Raise ValueError)
       ∧ (¬ ids_fit caps → outcome = Raise RuntimeError)
       ∧ (caps ≠ [] → ids_fit caps → ∃ b, outcome = Return b ∧ returned b))
  ∧ (∀ b, outcome = Return b →
       imgs ≠ [] ∧ caps ≠ [] ∧ ids_fit caps
       ∧ (∃ rs, tensors_of_row Img tensor_shape rs imgs)
       ∧ returned b).
Proof.
  intros imgs caps outcome returned.
  assert (Hret : ∀ rs, imgs ≠ [] → tensors_of_row Img tensor_shape rs imgs →
                       caps ≠ [] → ids_fit caps →
                       ∃ b, outcome = Return b ∧ returned b).
  { intros rs Himg Hrow Hcap Hids.
    destruct (collate_spec Img tensor_shape data rs Himg Hrow Hcap Hids)
      as (m & _ & Hcall).
    eexists. split; [exact Hcall |]. unfold returned. cbn.
    repeat split. apply unpad_rows. }
  split; [apply collate_other_fails |].
  split; [apply collate_no_image_fails |].
  split; [apply collate_mixed_fails |].
  split.
  { intros rs Himg Hrow.
    split; [by apply (collate_no_caption_value_error _ _ _ rs) |].
    split; [by apply (collate_overflow_fails _ _ _ rs) |].
    by apply (Hret rs). }
  intros b Hb.
  destruct (tensors_or_other Img tensor_shape imgs) as [Hall | Hother].
  2: { unfold outcome in Hb.
       rewrite (collate_other_fails _ _ _ Hother) in Hb. discriminate. }
  destruct (decide (imgs = [])) as [Himg | Himg].
  { unfold outcome in Hb.
    rewrite (collate_no_image_fails _ _ _ Himg) in Hb. discriminate. }
  destruct (one_row_shape_or_mixed imgs) as [[rs Hrow] | Hmixed].
  2: { unfold outcome in Hb.
       rewrite (collate_mixed_fails _ _ _ Hall Hmixed) in Hb. discriminate. }
  destruct (decide (caps = [])) as [Hcap | Hcap].
  { unfold outcome in Hb.
    rewrite (collate_no_caption_value_error _ _ _ rs Himg Hrow Hcap) in Hb.
    discriminate. }
  destruct (ids_fit_or_not caps) as [Hids | Hids].
  2: { unfold outcome in Hb.
       rewrite (collate_overflow_fails _ _ _ rs Himg Hrow Hids) in Hb.
       discriminate. }
  destruct (Hret rs Himg Hrow Hcap Hids) as (b' & Hb' & Hreturned).
  assert (b' = b) as -> by congruence.
  split; [done |]. split; [done |]. split; [done |]. split; [by exists rs |].
  done.
Qed.

End CollateMore.

(** ** EarlyStopping: the other mode, bad epochs, patience, files *)

Section EarlyStoppingMore.

Lemma init_min_mode save_final patience thr :
  min_mode_inv thr (EarlyStopping_init save_final patience "min" thr).
Proof. by repeat split. Qed.

Lemma call_best_score_min thr self score :
  min_mode_inv thr self →
  best_score (EarlyStopping_call self score).1.2 =
    if Float.ltb thr (Float.sub (best_score self) score) then score
    else best_score self.
Proof.
  intros (Hmode & Hthr & _). unfold EarlyStopping_call, better_score.
  rewrite Hmode, Hthr.
  rewrite decide_False by discriminate. rewrite decide_True by done.
  cbn [truthy].
  destruct (Float.ltb thr _); [done |].
  by destruct (_ <=? _)%Z.
Qed.

Lemma ltb_not_nan_l x y : Float.ltb x y = true → x ≠ S754_nan.
Proof. by intros H ->. Qed.

Lemma ltb_irrefl x : Float.ltb x x = false.
Proof.
  unfold Float.ltb, SFltb, SFcompare.
  destruct x as [[] | [] | | [] m e]; try done;
    by rewrite Z.compare_refl, Pos.compare_cont_refl.
Qed.

Lemma call_step_min thr self score :
  Float.ltb thr Float.zero = false →
  min_mode_inv thr self → Float.valid score = true →
  min_mode_inv thr (EarlyStopping_call self score).1.2
  ∧ Float.leb (best_score (EarlyStopping_call self score).1.2)
              (best_score self) = true.
Proof.
  intros Hthr Hinv Hscore.
  pose proof (call_best_score_min thr self score Hinv) as Hbest.
  destruct (call_other_fields self score) as [Hm Ht].
  destruct Hinv as (Hmode & Hthreshold & Hvalid & Hnan).
  unfold min_mode_inv. rewrite Hm, Ht, Hbest.
  destruct (Float.ltb thr (Float.sub (best_score self) score)) eqn:Hbetter.
  - assert (Hlt : Float.ltb score (best_score self) = true)
      by eauto using sub_pos_lt, ltb_pos.
    repeat split; eauto using ltb_not_nan_l, ltb_leb.
  - repeat split; eauto using leb_refl.
Qed.

Lemma run_steps_min thr scores self :
  Float.ltb thr Float.zero = false →
  min_mode_inv thr self →
  Forall (fun s => Float.valid s = true) scores →
  min_mode_inv thr (EarlyStopping_run self scores)
  ∧ Float.leb (best_score (EarlyStopping_run self scores))
              (best_score self) = true.
Proof.
  intros Hthr Hinv Hvalid. revert self Hinv.
  induction Hvalid as [| score scores Hs _ IH]; intros self Hinv; cbn.
  - split; [done |]. apply leb_refl. apply Hinv.
  - destruct (call_step_min thr self score Hthr Hinv Hs) as [Hinv' Hle].
    destruct (IH _ Hinv') as [Hinv'' Hle'].
    split; [done |]. by eapply leb_trans.
Qed.

(** X16: for an [EarlyStopping] object with mode ["min"] whose threshold
    is not negative, [best_score] starts at infinity and is
    non-increasing across any sequence of calls with float scores; a call
    sets it to the new score exactly when
    [best_score - score > threshold]. *)
Theorem best_score_non_increasing (save_final : bool) (patience : Z)
    (thr : spec_float) (before after : list spec_float) :
  Float.ltb thr Float.zero = false →
  Forall (fun s => Float.valid s = true) (before ++ after) →
  let init := EarlyStopping_init save_final patience "min" thr in
  let self := EarlyStopping_run init before in
  best_score init = Float.inf
  ∧ Float.leb (best_score (EarlyStopping_run init (before ++ after)))
              (best_score self) = true
  ∧ ∀ score,
      best_score (EarlyStopping_call self score).1.2 =
        if Float.ltb thr (Float.sub (best_score self) score) then score
        else best_score self.
Proof.
  intros Hthr Hvalid init self.
  apply Forall_app in Hvalid as [Hb Ha].
  destruct (run_steps_min thr before init Hthr
              (init_min_mode save_final patience thr) Hb) as [Hinv _].
  split; [done |]. split.
  - replace (EarlyStopping_run init (before ++ after))
      with (EarlyStopping_run self after)
      by (unfold self, EarlyStopping_run; by rewrite foldl_app).
    by apply (run_steps_min thr after self Hthr Hinv Ha).
  - intros score. by apply call_best_score_min.
Qed.

(** X17: in mode ["max"] with a threshold that is not negative, a score
    counts as better only if it is strictly greater than the best score;
    in particular reporting the best score again is a bad epoch. *)
Theorem improvement_is_strict (save_final : bool) (patience : Z)
    (thr : spec_float) (scores : list spec_float) (score : spec_float) :
  Float.ltb thr Float.zero = false →
  Forall (fun s => Float.valid s = true) scores →
  Float.valid score = true →
  let self :=
    EarlyStopping_run (EarlyStopping_init save_final patience "max" thr)
                      scores in
  (truthy (better_score self score) = true →
   Float.ltb (best_score self) score = true)
  ∧ truthy (better_score self (best_score self)) = false.
Proof.
  intros Hthr Hvalid Hscore self.
  destruct (run_steps thr scores _ Hthr
              (init_max_mode save_final patience thr) Hvalid)
    as [(Hmode & Hthreshold & Hbest & Hnan) _].
  fold self in Hmode, Hthreshold, Hbest, Hnan.
  assert (Hbetter : ∀ s, Float.valid s = true →
            truthy (better_score self s) = true →
            Float.ltb (best_score self) s = true).
  { intros s Hs. unfold better_score.
    rewrite Hmode, Hthreshold, decide_True by done. cbn [truthy].
    intros Hb. eauto using sub_pos_lt, ltb_pos. }
  split; [by apply Hbetter |].
  destruct (truthy (better_score self (best_score self))) eqn:Hb; [| done].
  apply Hbetter in Hb; [| done]. by rewrite ltb_irrefl in Hb.
Qed.

Lemma sub_nan x :
  Float.sub x S754_nan = S754_nan ∧ Float.sub S754_nan x = S754_nan.
Proof. by destruct x as [[] | [] | | [] ? ?]. Qed.

Lemma ltb_nan_r x : Float.ltb x S754_nan = false.
Proof. by destruct x as [[] | [] | | [] ? ?]. Qed.

(** X18: a score that is not a number is a bad epoch in every mode and
    for every threshold: the best score stays and the counter of bad
    epochs goes up by one. *)
Theorem nan_score_is_bad (self : EarlyStopping) :
  truthy (better_score self S754_nan) = false
  ∧ best_score (EarlyStopping_call self S754_nan).1.2 = best_score self
  ∧ num_bad_epoch (EarlyStopping_call self S754_nan).1.2
    = S (num_bad_epoch self).
Proof.
  assert (Hbad : truthy (better_score self S754_nan) = false).
  { unfold better_score.
    destruct (sub_nan (best_score self)) as [-> ->].
    repeat case_decide; cbn; by rewrite ?ltb_nan_r. }
  split; [done |]. unfold EarlyStopping_call. rewrite Hbad.
  by destruct (_ <=? _)%Z.
Qed.

Lemma unknown_mode_bad self score :
  mode self ≠ "max" → mode self ≠ "min" →
  truthy (better_score self score) = false.
Proof.
  intros Hmax Hmin. unfold better_score.
  by rewrite !decide_False by done.
Qed.

Lemma bad_call self score :
  truthy (better_score self score) = false →
  mode (EarlyStopping_call self score).1.2 = mode self
  ∧ patience (EarlyStopping_call self score).1.2 = patience self
  ∧ best_score (EarlyStopping_call self score).1.2 = best_score self
  ∧ num_bad_epoch (EarlyStopping_call self score).1.2
    = S (num_bad_epoch self)
  ∧ (EarlyStopping_call self score).1.1
    = bool_decide (Z.of_nat (S (num_bad_epoch self)) < patience self)%Z.
Proof.
  intros Hbad. unfold EarlyStopping_call. rewrite Hbad. cbn.
  destruct (Z.leb_spec (patience self) (Z.of_nat (S (num_bad_epoch self))));
    cbn; repeat split; try done.
  - by rewrite bool_decide_eq_false_2 by lia.
  - by rewrite bool_decide_eq_true_2 by lia.
Qed.

(** X19: with a mode that is neither ["max"] nor ["min"], after any
    number of calls [better_score] returns None for every score, so no
    score ever counts as better: the best score stays at infinity, every
    call is a bad epoch, and the call number [n] returns True exactly
    when [n < patience]. *)
Theorem unknown_mode_never_improves (save_final : bool) (pat : Z)
    (m : string) (thr : spec_float) (scores : list spec_float)
    (score : spec_float) :
  m ≠ "max" → m ≠ "min" →
  let self := EarlyStopping_run (EarlyStopping_init save_final pat m thr)
                                scores in
  better_score self score = None
  ∧ best_score self = Float.inf
  ∧ num_bad_epoch self = length scores
  ∧ (EarlyStopping_call self score).1.1
    = bool_decide (Z.of_nat (S (length scores)) < pat)%Z.
Proof.
  intros Hmax Hmin self.
  assert (Hinv : mode self = m ∧ patience self = pat
                 ∧ best_score self = Float.inf
                 ∧ num_bad_epoch self = length scores).
  { unfold self. induction scores as [| s scores IH] using rev_ind.
    - cbn. by rewrite decide_False.
    - unfold EarlyStopping_run in *. rewrite foldl_snoc, length_app. cbn.
      destruct IH as (Hm & Hp & Hb & Hn).
      destruct (bad_call _ s (unknown_mode_bad _ s
                  ltac:(by rewrite Hm) ltac:(by rewrite Hm)))
        as (Hm' & Hp' & Hb' & Hn' & _).
      rewrite Hm', Hp', Hb', Hn'. repeat split; try done. lia. }
  destruct Hinv as (Hm & Hp & Hb & Hn).
  split.
  { unfold better_score. rewrite Hm. by rewrite !decide_False by done. }
  split; [done |]. split; [done |].
  destruct (bad_call self score (unknown_mode_bad self score
              ltac:(by rewrite Hm) ltac:(by rewrite Hm)))
    as (_ & _ & _ & _ & Hret).
  by rewrite Hret, Hn, Hp.
Qed.

Lemma call_counts self score :
  patience (EarlyStopping_call self score).1.2 = patience self
  ∧ num_bad_epoch (EarlyStopping_call self score).1.2
    ≤ S (num_bad_epoch self)
  ∧ (best_score (EarlyStopping_call self score).1.2 = best_score self
     ∨ best_score (EarlyStopping_call self score).1.2 = score)
  ∧ ((EarlyStopping_call self score).1.1 = false →
     (patience self ≤ Z.of_nat (S (num_bad_epoch self)))%Z).
Proof.
  unfold EarlyStopping_call. destruct (truthy _); cbn.
  - repeat split; [lia | by right | done].
  - destruct (Z.leb_spec (patience self) (Z.of_nat (S (num_bad_epoch self))));
      cbn; repeat split; try done; by left.
Qed.

(** X20: whatever the mode, the threshold and the scores, the call
    cannot return False before it has been made [patience] times, and
    the best score is always the initial one or one of the scores
    reported. *)
Theorem never_stops_early (save_final : bool) (pat : Z) (m : string)
    (thr : spec_float) (scores : list spec_float) (score : spec_float) :
  let init := EarlyStopping_init save_final pat m thr in
  let self := EarlyStopping_run init scores in
  ((EarlyStopping_call self score).1.1 = false →
   (pat ≤ Z.of_nat (S (length scores)))%Z)
  ∧ (best_score self = best_score init ∨ best_score self ∈ scores).
Proof.
  intros init self.
  assert (Hinv : patience self = pat
                 ∧ num_bad_epoch self ≤ length scores
                 ∧ (best_score self = best_score init
                    ∨ best_score self ∈ scores)).
  { unfold self. induction scores as [| s scores IH] using rev_ind.
    - cbn. split; [done |]. split; [lia | by left].
    - unfold EarlyStopping_run in *. rewrite foldl_snoc, length_app. cbn.
      destruct IH as (Hp & Hn & Hb).
      destruct (call_counts (foldl (fun self score =>
                   (EarlyStopping_call self score).1.2) init scores) s)
        as (Hp' & Hn' & Hb' & _).
      split; [congruence |]. split; [lia |].
      destruct Hb' as [-> | ->].
      + destruct Hb as [-> | Hin]; [by left | right].
        apply elem_of_app. by left.
      + right. apply elem_of_app. right. apply list_elem_of_here. }
  destruct Hinv as (Hp & Hn & Hb). split; [| done].
  intros Hret. destruct (call_counts self score) as (_ & _ & _ & Hstop).
  specialize (Hstop Hret). lia.
Qed.

Lemma path_join_relative (d : string) (c : ascii) (name : string) :
  c ≠ "/"%char →
  path_join d (String c name)
  = match String.rev d with
    | EmptyString | String "/" _ => d +:+ String c name
    | _ => d +:+ "/" +:+ String c name
    end.
Proof.
  intros Hc. unfold path_join.
  destruct c as [[] [] [] [] [] [] [] []]; done.
Qed.

(** [os.path.join] puts the same prefix before every name that does not
    start with a slash. *)
Lemma path_join_prefix (d : string) :
  ∃ prefix, ∀ (c : ascii) (name : string),
    c ≠ "/"%char → path_join d (String c name) = prefix +:+ String c name.
Proof.
  destruct (String.rev d) as [| x r] eqn:Hd.
  - exists d. intros c name Hc. by rewrite path_join_relative, Hd.
  - destruct (decide (x = "/"%char)) as [-> | Hx].
    + exists d. intros c name Hc. by rewrite path_join_relative, Hd.
    + exists (d +:+ "/"). intros c name Hc.
      rewrite path_join_relative, Hd, append_assoc by done.
      destruct x as [[] [] [] [] [] [] [] []]; done.
Qed.

(** X21: for every output directory the four files of the callbacks are
    pairwise distinct, and a call of [__call__] writes at most one of
    them: "best-model.pt" when the score is better, "final-model.pt" when
    it returns False and [save_final_model] is set, and never an epoch or
    state checkpoint. *)
Theorem checkpoint_files (output_dir : string) (self : EarlyStopping)
    (score : spec_float) :
  NoDup [best_model_path output_dir; final_model_path output_dir;
         epoch_checkpoint_path output_dir;
         state_dict_checkpoint_path output_dir]
  ∧ concat (written_paths output_dir <$> (EarlyStopping_call self score).2)
    = if truthy (better_score self score)
      then [best_model_path output_dir]
      else if negb (EarlyStopping_call self score).1.1
              && save_final_model self
      then [final_model_path output_dir]
      else [].
Proof.
  split.
  - destruct (path_join_prefix output_dir) as [prefix Hp].
    unfold best_model_path, final_model_path, epoch_checkpoint_path,
      state_dict_checkpoint_path.
    rewrite !Hp by discriminate.
    change (NoDup (String.app prefix
                   <$> ["best-model.pt"; "final-model.pt";
                        "checkpoint-model.pt"; "state_dict_checkpoint.pt"])).
    apply (NoDup_fmap_2 (String.app prefix)).
    repeat (apply NoDup_cons; split;
            [rewrite ?elem_of_cons, ?elem_of_nil; intuition discriminate |]).
    apply NoDup_nil_2.
  - unfold EarlyStopping_call.
    destruct (truthy (better_score self score)); [done |].
    destruct (_ <=? _)%Z; cbn; [| done].
    by destruct (save_final_model self).
Qed.

End EarlyStoppingMore.

(** ** The further properties at concrete inputs *)

Section MoreInstances.
Import Sample_data.

Local Abbreviation small_vocab :=
  (foldl add_word (Vocabulary_init PAD UNK_WORD START_SEQ END_SEQ) ["a"; "dog"]).

Lemma the_vocab_built : vocab (dataset true) = small_vocab.
Proof. vm_compute. reflexivity. Qed.

(** X1 at a concrete input. *)
Lemma encode_seq_total_witness :
  NoDup [PAD; UNK_WORD; START_SEQ; END_SEQ]
  ∧ ∃ ids, encode_seq UNK_WORD small_vocab ["a"; "cat"; "dog"] = Return ids
           ∧ length ids = length ["a"; "cat"; "dog"]
           ∧ Forall (fun i => i < idx small_vocab) ids
           ∧ Forall (fun i => i < Vocabulary_len small_vocab) ids.
Proof.
  destruct (encode_seq_total PAD UNK_WORD START_SEQ END_SEQ ["a"; "dog"]
              ["a"; "cat"; "dog"]) as (ids & He & Hl & Hr & Hlen).
  exact (conj sample_reserved_distinct
    (ex_intro _ ids (conj He (conj Hl (conj Hr
       (Hlen sample_reserved_distinct)))))).
Defined.

(** X13 at a concrete input: the first sample of the sample dataset. *)
Lemma getitem_outcome_witness :
  vocab (dataset true) = small_vocab
  ∧ ∃ s, (fetch (dataset true) 0).1 = Return s.
Proof.
  exact (conj the_vocab_built
    (getitem_outcome PAD UNK_WORD START_SEQ END_SEQ string open_path
       (dataset true) ["a"; "dog"] 0 the_vocab_built)).
Defined.

(** X14 at a concrete input: "a dog runs" with "runs" out of the
    vocabulary. *)
Lemma first_caption_encoding_witness :
  NoDup [PAD; UNK_WORD; START_SEQ; END_SEQ]
  ∧ vocab (dataset true) = small_vocab
  ∧ first_caption_only (dataset true) = true
  ∧ image_ids (dataset true) !! 0 = Some "1.jpg"
  ∧ labels (dataset true) !! "1.jpg" = Some ["a dog runs"; "a cat sits"]
  ∧ fetch (dataset true) 0 = (Return first_sample_1, dataset true)
  ∧ ∃ body,
      captions first_sample_1 = [2 :: body ++ [3]]
      ∧ length body = length (tokenize "a dog runs")
      ∧ Forall (fun i => i < Vocabulary_len (vocab (dataset true))) body
      ∧ decode_seq (vocab (dataset true)) (2 :: body ++ [3])
        = Return ([START_SEQ]
                  ++ ((fun t =>
                         if decide (is_Some (word2idx (vocab (dataset true))
                                               !! t))
                         then t else UNK_WORD) <$> tokenize "a dog runs")
                  ++ [END_SEQ]).
Proof.
  assert (h3 : first_caption_only (dataset true) = true) by reflexivity.
  assert (h4 : image_ids (dataset true) !! 0 = Some "1.jpg") by reflexivity.
  assert (h5 : labels (dataset true) !! "1.jpg"
               = Some ["a dog runs"; "a cat sits"])
    by (vm_compute; reflexivity).
  assert (h6 : fetch (dataset true) 0 = (Return first_sample_1, dataset true))
    by (vm_compute; reflexivity).
  exact (conj sample_reserved_distinct (conj the_vocab_built (conj h3
    (conj h4 (conj h5 (conj h6
      (first_caption_encoding PAD UNK_WORD START_SEQ END_SEQ string open_path
         (dataset true) ["a"; "dog"] 0 "1.jpg" "a dog runs" ["a cat sits"]
         first_sample_1 (dataset true)
         sample_reserved_distinct the_vocab_built h3 h4 h5 h6))))))).
Defined.

(** X15 at concrete inputs: a PIL image, no sample, tensors of two
    sizes, a sample without caption, and the three one-caption samples. *)
Lemma collate_outcome_witness :
  let pil := [mkSample [Tensor_data.PilImage "x.jpg"] [[2; 3]] []] in
  let mixed := [mkSample [Tensor_data.TensorImage [3; 2; 2] "x.jpg"] [[2; 3]] [];
                mkSample [Tensor_data.TensorImage [3; 4; 4] "y.jpg"] [[2; 3]] []] in
  let three := Tensor_data.three_samples in
  Tensor_data.collate pil = Raise AttributeError
  ∧ Tensor_data.collate [] = Raise RuntimeError
  ∧ Tensor_data.collate mixed = Raise RuntimeError
  ∧ Tensor_data.collate [Tensor_data.sample_2] = Raise ValueError
  ∧ (∃ b, Tensor_data.collate three = Return b
          ∧ batch_images b = concat (images <$> three)
          ∧ lengths b = length <$> concat (captions <$> three)
          ∧ batch_all_captions b = all_captions <$> three
          ∧ zip_with take (lengths b) (captions_padded b)
            = concat (captions <$> three)).
Proof.
  intros pil mixed three.
  pose (shape := Tensor_data.shape_of).
  assert (h1 : Exists (fun image => shape image = None)
                      (concat (images <$> pil)))
    by (constructor; reflexivity).
  assert (h2 : concat (images <$> ([] : list (Sample Tensor_data.picture)))
               = []) by reflexivity.
  assert (h3 : Forall (fun image => is_Some (shape image))
                      (concat (images <$> mixed)))
    by (repeat constructor; vm_compute; eauto).
  assert (h4 : ∀ rs, ¬ tensors_of_row Tensor_data.picture shape rs
                         (concat (images <$> mixed))).
  { intros rs Hrow. apply Forall_cons in Hrow as [Hx Hrow].
    apply Forall_cons in Hrow as [Hy _]. vm_compute in Hx, Hy. congruence. }
  assert (h5 : concat (images <$> [Tensor_data.sample_2]) ≠ [])
    by discriminate.
  assert (h6 : tensors_of_row Tensor_data.picture shape [3; 2; 2]
                              (concat (images <$> [Tensor_data.sample_2])))
    by (repeat constructor).
  assert (h7 : concat (captions <$> [Tensor_data.sample_2]) = [])
    by reflexivity.
  assert (h8 : concat (images <$> three) ≠ []) by discriminate.
  assert (h9 : tensors_of_row Tensor_data.picture shape [3; 2; 2]
                              (concat (images <$> three)))
    by (repeat constructor).
  assert (h10 : concat (captions <$> three) ≠ []) by discriminate.
  assert (h11 : ids_fit (concat (captions <$> three)))
    by (repeat constructor).
  split; [exact (proj1 (collate_outcome Tensor_data.picture shape pil) h1) |].
  split; [exact (proj1 (proj2 (collate_outcome Tensor_data.picture shape []))
                   h2) |].
  split; [exact (proj1 (proj2 (proj2
                   (collate_outcome Tensor_data.picture shape mixed)))
                   h3 h4) |].
  split; [exact (proj1 (proj1 (proj2 (proj2 (proj2
                   (collate_outcome Tensor_data.picture shape
                      [Tensor_data.sample_2]))))
                   [3; 2; 2] h5 h6) h7) |].
  exact (proj2 (proj2 (proj1 (proj2 (proj2 (proj2
           (collate_outcome Tensor_data.picture shape three))))
           [3; 2; 2] h8 h9)) h10 h11).
Defined.

(** X16 at a concrete input. *)
Lemma best_score_non_increasing_witness :
  Float.ltb Float.default_threshold Float.zero = false
  ∧ Forall (fun s => Float.valid s = true)
           ([Float.half] ++ [Float.three_quarters; Float.quarter])
  ∧ let init := EarlyStopping_init false 5 "min" Float.default_threshold in
    let self := EarlyStopping_run init [Float.half] in
    best_score init = Float.inf
    ∧ Float.leb (best_score
                   (EarlyStopping_run init
                      ([Float.half] ++ [Float.three_quarters; Float.quarter])))
                (best_score self) = true
    ∧ ∀ score,
        best_score (EarlyStopping_call self score).1.2 =
          if Float.ltb Float.default_threshold
                       (Float.sub (best_score self) score)
          then score else best_score self.
Proof.
  assert (h1 : Float.ltb Float.default_threshold Float.zero = false)
    by reflexivity.
  assert (h2 : Forall (fun s => Float.valid s = true)
                 ([Float.half] ++ [Float.three_quarters; Float.quarter]))
    by (repeat constructor).
  exact (conj h1 (conj h2
    (best_score_non_increasing false 5 Float.default_threshold
       [Float.half] [Float.three_quarters; Float.quarter] h1 h2))).
Defined.

(** X17 at a concrete input: after the score 0.5, the score 0.75 is
    better. *)
Lemma improvement_is_strict_witness :
  Float.ltb Float.default_threshold Float.zero = false
  ∧ Forall (fun s => Float.valid s = true) [Float.half]
  ∧ Float.valid Float.three_quarters = true
  ∧ let self :=
      EarlyStopping_run
        (EarlyStopping_init false 5 "max" Float.default_threshold)
        [Float.half] in
    truthy (better_score self Float.three_quarters) = true
    ∧ Float.ltb (best_score self) Float.three_quarters = true
    ∧ truthy (better_score self (best_score self)) = false.
Proof.
  assert (h1 : Float.ltb Float.default_threshold Float.zero = false)
    by reflexivity.
  assert (h2 : Forall (fun s => Float.valid s = true) [Float.half])
    by (repeat constructor).
  assert (h3 : Float.valid Float.three_quarters = true) by reflexivity.
  pose proof (improvement_is_strict false 5 Float.default_threshold
                [Float.half] Float.three_quarters h1 h2 h3) as [Hlt Hsame].
  assert (h4 : truthy (better_score
                 (EarlyStopping_run
                    (EarlyStopping_init false 5 "max" Float.default_threshold)
                    [Float.half]) Float.three_quarters) = true)
    by (vm_compute; reflexivity).
  exact (conj h1 (conj h2 (conj h3 (conj h4 (conj (Hlt h4) Hsame))))).
Defined.

(** X19 at a concrete input: the mode "maximum". *)
Lemma unknown_mode_never_improves_witness :
  "maximum" ≠ "max" ∧ "maximum" ≠ "min"
  ∧ let self :=
      EarlyStopping_run
        (EarlyStopping_init false 2 "maximum" Float.default_threshold)
        [Float.half] in
    better_score self Float.three_quarters = None
    ∧ best_score self = Float.inf
    ∧ num_bad_epoch self = length [Float.half]
    ∧ (EarlyStopping_call self Float.three_quarters).1.1
      = bool_decide (Z.of_nat (S (length [Float.half])) < 2)%Z.
Proof.
  assert (h1 : "maximum" ≠ "max") by discriminate.
  assert (h2 : "maximum" ≠ "min") by discriminate.
  exact (conj h1 (conj h2
    (unknown_mode_never_improves false 2 "maximum" Float.default_threshold
       [Float.half] Float.three_quarters h1 h2))).
Defined.

(** X20 at a concrete input: patience 2, the second bad epoch in a row. *)
Lemma never_stops_early_witness :
  let init := EarlyStopping_init false 2 "max" Float.default_threshold in
  let self := EarlyStopping_run init [Float.half; Float.quarter] in
  (EarlyStopping_call self Float.quarter).1.1 = false
  ∧ (2 ≤ Z.of_nat (S (length [Float.half; Float.quarter])))%Z
  ∧ (best_score self = best_score init
     ∨ best_score self ∈ [Float.half; Float.quarter]).
Proof.
  intros init self.
  assert (h : (EarlyStopping_call self Float.quarter).1.1 = false)
    by (vm_compute; reflexivity).
  pose proof (never_stops_early false 2 "max" Float.default_threshold
                [Float.half; Float.quarter] Float.quarter) as [Hstop Hbest].
  exact (conj h (conj (Hstop h) Hbest)).
Defined.

End MoreInstances.

Section MoreInstances2.
Import Sample_data.

(** X22 at a concrete input. *)
Lemma all_captions_wrapped_witness :
  image_ids (dataset false) !! 0 = Some "1.jpg"
  ∧ fetch (dataset false) 0 = (Return full_sample, dataset false)
  ∧ all_captions full_sample
    = (fun caption => [START_SEQ] ++ tokenize caption ++ [END_SEQ])
        <$> default [] (labels (dataset false) !! "1.jpg")
  ∧ Forall2 (fun caption tokens =>
               length tokens = 2 + length (tokenize caption)
               ∧ head tokens = Some START_SEQ
               ∧ last tokens = Some END_SEQ)
            (default [] (labels (dataset false) !! "1.jpg"))
            (all_captions full_sample).
Proof.
  assert (h1 : image_ids (dataset false) !! 0 = Some "1.jpg") by reflexivity.
  assert (h2 : fetch (dataset false) 0 = (Return full_sample, dataset false))
    by (vm_compute; reflexivity).
  exact (conj h1 (conj h2
    (all_captions_wrapped UNK_WORD START_SEQ END_SEQ string open_path
       (dataset false) 0 "1.jpg" full_sample (dataset false) h1 h2))).
Defined.

End MoreInstances2.
